(** * Worker-safety detection: the violation filter and the alert cooldown

    A shallow embedding of [src/detect.py], [src/alert.py] and
    [src/utils.py], and the properties of the violation filter, of the
    drawing of the frame and of the alert cooldown proved over it.

    Conventions of the embedding.
    - Confidences are Python floats: binary64 values, compared with the IEEE
      comparison ([PrimFloat.ltb]).
    - [datetime] values are integers: the number of microseconds since a fixed
      origin ([datetime] has microsecond resolution and its arithmetic is
      exact); a [timedelta] is a signed number of microseconds.
    - The cooldown [alerts.min_time_between_alerts] of the configuration
      is an integer number of seconds.
    - The external collaborators (model, clock, file system, OpenCV,
      Telegram) are not modelled: what they return, and whether they raise,
      while one frame is processed is an input ([FrameEnv], [DrawEnv]);
      this includes the drawing calls of OpenCV, which raise [cv2.error] on
      arguments they do not accept.
    - A Python exception that leaves a function is a result (the left
      summand); what is printed, written or sent is recorded in a trace of
      [Event]s. *)

From Stdlib Require Import Floats ZArith Lia Ascii.
From stdpp Require Import gmap strings list.

Local Open Scope Z_scope.

(** ** Data *)

(** One element of [result.boxes], after the conversions the code applies:
    [int(box.cls[0])], [float(box.conf[0])] and [box.xyxy[0].tolist()]. *)
Record Box := mkBox {
  cls : Z;
  conf : float;
  xyxy : list float
}.

(** One element of the list the model returns: its boxes and its dictionary
    [names] from class ids to class names. *)
Record Result := mkResult {
  boxes : list Box;
  names : gmap Z string
}.

(** The dictionary [{'class': .., 'confidence': .., 'bbox': ..}] appended by
    [detect_violations]; also the Detection of the specification. *)
Record Detection := mkDetection {
  d_class : string;
  d_confidence : float;
  d_bbox : list float
}.

(** The keys of [config.yaml] that the modelled code reads. *)
Record Config := mkConfig {
  confidence_threshold : float;      (* detection.confidence_threshold *)
  violation_classes : list string;   (* violations.violation_classes *)
  save_screenshots : bool;           (* alerts.save_screenshots *)
  screenshot_dir : string;           (* alerts.screenshot_path *)
  min_time_between_alerts : Z;       (* alerts.min_time_between_alerts, seconds *)
  enable_alerts : bool;              (* telegram.enable_alerts *)
  bot_token : string;                (* telegram.bot_token *)
  chat_id : string;                  (* telegram.chat_id *)
  save_output : bool;                (* video.save_output *)
  show_preview : bool                (* video.show_preview *)
}.

(** Python exceptions, all subclasses of [Exception]. [KeyError],
    [IndexError] and [UnboundLocalError] are raised by the code of
    [detect.py]; [ValueError] and [OverflowError] by unpacking and by [int()]
    in [draw_boxes] (and [OverflowError] by [timedelta]); [Cv2Error] stands
    for [cv2.error]; the last three stand for what the calls inside the
    [try] block of [send_violation_alert] can raise:
    [telegram.error.TelegramError] and its subclasses, [FileNotFoundError],
    and any other exception. *)
Inductive Exn :=
| KeyError (key : Z)
| IndexError
| UnboundLocalError (name : string)
| ValueError
| OverflowError
| Cv2Error
| TelegramError
| FileNotFoundError
| OtherException.

(** ** detect.py: [SafetyDetector.detect_violations] *)

(** [class_name in violation_classes] on a YAML list of strings. *)
Definition class_in (class_name : string) (classes : list string) : bool :=
  bool_decide (class_name ∈ classes).

(** [confidence > threshold] on Python floats. *)
Definition float_gt (confidence threshold : float) : bool :=
  PrimFloat.ltb threshold confidence.

(** The test of line 46. *)
Definition is_violation (cfg : Config) (class_name : string) (confidence : float) : bool :=
  class_in class_name (violation_classes cfg)
  && float_gt confidence (confidence_threshold cfg).

(** The inner loop [for box in boxes], with the list [violations] built so
    far; [result.names[class_id]] raises [KeyError] on an unknown id. *)
Fixpoint scan_boxes (cfg : Config) (nm : gmap Z string) (bs : list Box)
    (violations : list Detection) : Exn + list Detection :=
  match bs with
  | [] => inr violations
  | box :: bs' =>
      let class_id := cls box in
      match nm !! class_id with
      | None => inl (KeyError class_id)
      | Some class_name =>
          let confidence := conf box in
          if is_violation cfg class_name confidence
          then scan_boxes cfg nm bs'
                 (violations ++ [mkDetection class_name confidence (xyxy box)])
          else scan_boxes cfg nm bs' violations
      end
  end.

(** The outer loop [for result in results]. *)
Fixpoint scan_results (cfg : Config) (results : list Result)
    (violations : list Detection) : Exn + list Detection :=
  match results with
  | [] => inr violations
  | result :: results' =>
      match scan_boxes cfg (names result) (boxes result) violations with
      | inl e => inl e
      | inr violations' => scan_results cfg results' violations'
      end
  end.

Definition detect_violations (cfg : Config) (results : list Result)
    : Exn + list Detection :=
  scan_results cfg results [].

(** *** The input of the filter as a sequence of detections

    The specification's filter takes a sequence of Detections; the code takes
    the model's results. [detections] is the sequence of detections that a
    list of results presents: every box of every result, in order, with its
    class name looked up. It raises on the first unknown class id, as the scan
    does. *)
Fixpoint box_detections (nm : gmap Z string) (bs : list Box) : Exn + list Detection :=
  match bs with
  | [] => inr []
  | box :: bs' =>
      match nm !! cls box with
      | None => inl (KeyError (cls box))
      | Some class_name =>
          match box_detections nm bs' with
          | inl e => inl e
          | inr ds => inr (mkDetection class_name (conf box) (xyxy box) :: ds)
          end
      end
  end.

Fixpoint detections (results : list Result) : Exn + list Detection :=
  match results with
  | [] => inr []
  | result :: results' =>
      match box_detections (names result) (boxes result) with
      | inl e => inl e
      | inr ds =>
          match detections results' with
          | inl e => inl e
          | inr ds' => inr (ds ++ ds')
          end
      end
  end.

(** The specification's criterion on one detection. *)
Definition qualifies (classes : list string) (threshold : float) (d : Detection) : Prop :=
  d_class d ∈ classes ∧ PrimFloat.ltb threshold (d_confidence d) = true.

Global Instance qualifies_dec classes threshold d :
  Decision (qualifies classes threshold d).
Proof. unfold qualifies. apply _. Defined.

Definition map_inr {E A B} (f : A → B) (r : E + A) : E + B :=
  match r with inl e => inl e | inr a => inr (f a) end.

(** ** utils.py: [draw_boxes]

    The annotated frame is modelled by the list of drawing calls made on the
    copy of the frame, in order. *)

(** Python's [int(x)] on a float: truncation towards zero. *)
Definition int_of_float (f : float) : Exn + Z :=
  match Prim2SF f with
  | S754_zero _ => inr 0
  | S754_infinity _ => inl OverflowError
  | S754_nan => inl ValueError
  | S754_finite s m e =>
      let magnitude :=
        if 0 <=? e then Z.pos m * 2 ^ e else Z.pos m / 2 ^ (- e) in
      inr (if s then - magnitude else magnitude)
  end.

(** Unpacking [n] targets from the lazy [map(int, xs)]: the elements are
    converted one by one as they are taken; after the last target one more
    element is asked for, and its presence is an error. *)
Fixpoint unpack_ints (n : nat) (xs : list float) : Exn + list Z :=
  match n, xs with
  | O, [] => inr []
  | O, x :: _ =>
      match int_of_float x with
      | inl ex => inl ex
      | inr _ => inl ValueError
      end
  | S _, [] => inl ValueError
  | S n', x :: xs' =>
      match int_of_float x with
      | inl ex => inl ex
      | inr z =>
          match unpack_ints n' xs' with
          | inl ex => inl ex
          | inr zs => inr (z :: zs)
          end
      end
  end.

(** The text of a [cv2.putText] call ([confidence] is printed with two
    decimals; the formatting is not modelled). *)
Inductive Text :=
| BoxLabel (violation : bool) (class_name : string) (confidence : float)
| TimestampText (stamp : string)
| ViolationsText (count : nat).

(** A colour, as OpenCV's (blue, green, red). *)
Definition Colour : Type := Z * Z * Z.
Definition red : Colour := (0, 0, 255).
Definition green : Colour := (0, 255, 0).
Definition white : Colour := (255, 255, 255).

Inductive DrawOp :=
| Rectangle (pt1 pt2 : Z * Z) (colour : Colour) (thickness : Z)
| PutText (text : Text) (org : Z * Z) (font_scale : float) (colour : Colour)
    (thickness : Z).

(** What [draw_boxes] asks of its environment. OpenCV decides which calls
    it accepts: [draw_accepts] is false on a call of [cv2.rectangle] or
    [cv2.putText] that raises [cv2.error] (a coordinate that does not fit a
    C [int], for one). *)
Record DrawEnv := mkDrawEnv {
  label_width : Text → Z;       (* cv2.getTextSize(label, ...)[0][0] *)
  draw_stamp : string;          (* datetime.now().strftime('%Y-%m-%d %H:%M:%S') *)
  draw_accepts : DrawOp → bool  (* the cv2 drawing call returns *)
}.

(** The body of the loop of lines 20-46 for one box: the drawing calls are
    made in order, and the first that OpenCV refuses raises. *)
Definition box_ops (env : DrawEnv) (nm : gmap Z string)
    (violation_classes : list string) (box : Box) : Exn + list DrawOp :=
  match unpack_ints 4 (xyxy box) with
  | inl ex => inl ex
  | inr [x1; y1; x2; y2] =>
      let class_id := cls box in
      match nm !! class_id with
      | None => inl (KeyError class_id)
      | Some class_name =>
          let confidence := conf box in
          let '(color, label) :=
            if class_in class_name violation_classes
            then (red, BoxLabel true class_name confidence)
            else (green, BoxLabel false class_name confidence) in
          let outline := Rectangle (x1, y1) (x2, y2) color 2 in
          let background :=
            Rectangle (x1, y1 - 25) (x1 + label_width env label, y1) color (-1) in
          let text := PutText label (x1, y1 - 5) 0.5%float white 2 in
          if draw_accepts env outline && draw_accepts env background
             && draw_accepts env text
          then inr [outline; background; text]
          else inl Cv2Error
      end
  | inr _ => inl ValueError
  end.

Fixpoint draw_each (env : DrawEnv) (nm : gmap Z string)
    (violation_classes : list string) (bs : list Box) : Exn + list DrawOp :=
  match bs with
  | [] => inr []
  | box :: bs' =>
      match box_ops env nm violation_classes box with
      | inl ex => inl ex
      | inr ops =>
          match draw_each env nm violation_classes bs' with
          | inl ex => inl ex
          | inr ops' => inr (ops ++ ops')
          end
      end
  end.

Definition draw_boxes (env : DrawEnv) (results : Result)
    (violations : list Detection) : Exn + list DrawOp :=
  let violation_classes := d_class <$> violations in
  match draw_each env (names results) violation_classes (boxes results) with
  | inl ex => inl ex
  | inr ops =>
      let stamp := PutText (TimestampText (draw_stamp env)) (10, 30)
                     1%float white 2 in
      if draw_accepts env stamp then
        match violations with
        | [] => inr (ops ++ [stamp])
        | _ :: _ =>
            let count := PutText (ViolationsText (length violations)) (10, 70)
                           1%float red 2 in
            if draw_accepts env count
            then inr ((ops ++ [stamp]) ++ [count])
            else inl Cv2Error
        end
      else inl Cv2Error
  end.

(** The colours of the boxes drawn: those of the outlines, which are the
    rectangles of thickness 2. *)
Definition outline_colours (ops : list DrawOp) : list Colour :=
  omap (λ op, match op with
              | Rectangle _ _ colour 2 => Some colour
              | _ => None
              end) ops.

(** A float that is neither an infinity nor a NaN. *)
Definition finite (f : float) : Prop :=
  match Prim2SF f with
  | S754_zero _ | S754_finite _ _ _ => True
  | _ => False
  end.

(** A box whose coordinates and class [draw_boxes] can read. *)
Definition drawable (nm : gmap Z string) (box : Box) : Prop :=
  is_Some (nm !! cls box)
  ∧ ∃ a b c d, xyxy box = [a; b; c; d] ∧ finite a ∧ finite b ∧ finite c ∧ finite d.

(** ** Effects: state, exceptions and a trace *)

(** A line written by [print]. *)
Inductive Line :=
| LineProcessing
| LineFrameViolations (frame_no : Z) (count : nat)
| LineScreenshotSaved (path : string)
| LineScreenshotFailed (path : string)
| LineNoViolations
| LineAlertSent
| LineScreenshotNotFound (image_path : option string)
| LineTelegramError
| LineFileNotFound (image_path : option string)
| LineUnexpected
| LineComplete (frames violations : Z).

(** The caption of the alert: the set of violation types and the number of
    violations (the time stamp it also carries is left out). *)
Record Caption := mkCaption {
  violation_summary : gset string;
  violation_total : nat
}.

(** What the program does to the outside world, in order. *)
Inductive Event :=
| Printed (line : Line)
| ImWrite (path : string)                 (* cv2.imwrite *)
| NewBot (token : string)                 (* telegram.Bot(token=...) *)
| OpenFile (path : string)                (* open(image_path, 'rb') *)
| SendPhoto (chat : string) (photo : string) (caption : Caption)
                                          (* bot.send_photo *)
| VideoWrite                              (* out.write *)
| Imshow.                                 (* cv2.imshow *)

(** What the collaborators answer while one frame is processed. *)
Record FrameEnv := mkFrameEnv {
  env_results : list Result;        (* self.model(frame, conf=...) *)
  shot_stamp : string;              (* strftime('%Y%m%d_%H%M%S') of the screenshot *)
  imwrite_ok : bool;                (* the value of cv2.imwrite *)
  now : Z;                          (* datetime.now() of line 110 *)
  bot_ctor : option Exn;            (* telegram.Bot raises? *)
  path_exists : string → bool;      (* Path(p).exists() *)
  open_photo : option Exn;          (* open raises? *)
  send_photo : option Exn;          (* bot.send_photo raises? *)
  key_is_q : bool;                  (* cv2.waitKey(1) & 0xFF == ord('q') *)
  frame_draw : DrawEnv              (* what draw_boxes meets at line 93 *)
}.

(** The mutable state: the two fields of the detector object that
    [process_video] uses, the local variables of [process_video] that live
    across iterations, and the trace. [screenshot_path] is [None] while the
    local variable is unbound, [Some None] when it holds Python's [None]. *)
Record State := mkState {
  last_alert_time : option Z;               (* self.last_alert_time *)
  min_alert_interval : Z;                   (* self.min_alert_interval *)
  frame_count : Z;
  violation_count : Z;
  screenshot_path : option (option string);
  trace : list Event
}.

Definition M (A : Type) : Type := State → (Exn + A) * State.

Global Instance M_ret : MRet M := λ A (a : A) st, (inr a, st).

Global Instance M_bind : MBind M := λ A B (f : A → M B) (m : M A) st,
  match m st with
  | (inl e, st') => (inl e, st')
  | (inr a, st') => f a st'
  end.

Definition raise {A} (e : Exn) : M A := λ st, (inl e, st).

Definition get_state : M State := λ st, (inr st, st).

(** The state with more events at the end of its trace. *)
Definition add_trace (evs : list Event) (st : State) : State :=
  mkState (last_alert_time st) (min_alert_interval st) (frame_count st)
    (violation_count st) (screenshot_path st) (trace st ++ evs).

Definition emit (ev : Event) : M unit := λ st, (inr (), add_trace [ev] st).

(** The state after [self.last_alert_time = t]. *)
Definition record_alert (t : Z) (st : State) : State :=
  mkState (Some t) (min_alert_interval st) (frame_count st)
    (violation_count st) (screenshot_path st) (trace st).

Definition set_last_alert_time (t : Z) : M unit := λ st, (inr (), record_alert t st).

Definition set_screenshot_path (p : option string) : M unit := λ st,
  (inr (),
   mkState (last_alert_time st) (min_alert_interval st) (frame_count st)
     (violation_count st) (Some p) (trace st)).

Definition incr_frame_count : M unit := λ st,
  (inr (),
   mkState (last_alert_time st) (min_alert_interval st) (frame_count st + 1)
     (violation_count st) (screenshot_path st) (trace st)).

Definition incr_violation_count : M unit := λ st,
  (inr (),
   mkState (last_alert_time st) (min_alert_interval st) (frame_count st)
     (violation_count st + 1) (screenshot_path st) (trace st)).

(** The local variables of a fresh call of [process_video]. *)
Definition enter_process_video : M unit := λ st,
  (inr (),
   mkState (last_alert_time st) (min_alert_interval st) 0 0 None (trace st)).

(** Reading the local variable [screenshot_path]. *)
Definition read_screenshot_path : M (option string) := λ st,
  match screenshot_path st with
  | None => (inl (UnboundLocalError "screenshot_path"), st)
  | Some p => (inr p, st)
  end.

(** A call of a collaborator: the call is recorded, then it returns or
    raises as the environment says. *)
Definition call (ev : Event) (outcome : option Exn) : M unit :=
  emit ev;;
  match outcome with
  | Some e => raise e
  | None => mret ()
  end.

(** [try: body except ...: handler]. Every modelled exception is a subclass
    of [Exception], so the handlers see all of them. *)
Definition try_except {A} (body : M A) (handler : Exn → M A) : M A := λ st,
  match body st with
  | (inl e, st') => handler e st'
  | (inr a, st') => (inr a, st')
  end.

(** [timedelta(seconds=n)] for an integer number of seconds, in
    microseconds. *)
Definition timedelta_seconds (n : Z) : Z := n * 1000000.

(** [timedelta] holds from -999999999 to 999999999 days and raises
    [OverflowError] beyond. *)
Definition timedelta_fits (n : Z) : bool :=
  (-999999999 * 86400 <=? n) && (n <? (999999999 + 1) * 86400).

(** The detector that [__init__] returns (lines 30-32), with an empty trace,
    for a configuration whose [min_time_between_alerts] is an integer that
    [timedelta] accepts; see [new_detector]. *)
Definition init (cfg : Config) : State :=
  mkState None (timedelta_seconds (min_time_between_alerts cfg)) 0 0 None [].

(** [SafetyDetector(...)] once the configuration and the model are loaded:
    line 32 raises when [timedelta] cannot hold the cooldown. *)
Definition new_detector (cfg : Config) : Exn + State :=
  if timedelta_fits (min_time_between_alerts cfg)
  then inr (init cfg)
  else inl OverflowError.

(** ** utils.py: [save_violation_screenshot] *)

(** The components of a POSIX path as [pathlib] keeps them: the text
    between the separators, without the empty components and the [.] ones.
    [cur] is the component being read. *)
Definition keep_part (cur : string) : list string :=
  if String.eqb cur "" || String.eqb cur "." then [] else [cur].

Fixpoint path_parts (cur : string) (s : string) : list string :=
  match s with
  | EmptyString => keep_part cur
  | String c s' =>
      if Ascii.eqb c "/"%char
      then keep_part cur ++ path_parts "" s'
      else path_parts (cur +:+ String c "") s'
  end.

(** The root of a POSIX path: exactly two leading separators are kept, one
    or more than two make one. *)
Definition path_root (s : string) : string :=
  match s with
  | String "/"%char (String "/"%char (String "/"%char _)) => "/"
  | String "/"%char (String "/"%char _) => "//"
  | String "/"%char _ => "/"
  | _ => ""
  end.

(** What [str(Path(dir) / name)] puts before a one-component [name]. *)
Definition path_prefix (dir : string) : string :=
  path_root dir
  +:+ foldr (λ part rest, part +:+ "/" +:+ rest) "" (path_parts "" dir).

(** [str(Path(output_dir) / filename)] on a POSIX system, for a file name of
    one component, as the file names made from a [strftime] stamp are. *)
Definition path_join (dir filename : string) : string :=
  path_prefix dir +:+ filename.

Definition save_violation_screenshot (e : FrameEnv) (violations : list Detection)
    (output_dir : string) : M (option string) :=
  let timestamp := shot_stamp e in
  let filename := ("violation_" +:+ timestamp +:+ ".jpg")%string in
  let output_path := path_join output_dir filename in
  emit (ImWrite output_path);;
  if imwrite_ok e
  then emit (Printed (LineScreenshotSaved output_path));; mret (Some output_path)
  else emit (Printed (LineScreenshotFailed output_path));; mret None.

(** ** alert.py: [send_violation_alert] *)

(** The truth value of [image_path and Path(image_path).exists()]. *)
Definition image_available (e : FrameEnv) (image_path : option string) : bool :=
  match image_path with
  | None => false
  | Some p => negb (String.eqb p "") && path_exists e p
  end.

Definition alert_caption (violations : list Detection) : Caption :=
  let violation_types := d_class <$> violations in
  mkCaption (list_to_set violation_types) (length violations).

(** The three [except] clauses, in order. *)
Definition alert_handler (image_path : option string) (ex : Exn) : M unit :=
  match ex with
  | TelegramError => emit (Printed LineTelegramError)
  | FileNotFoundError => emit (Printed (LineFileNotFound image_path))
  | _ => emit (Printed LineUnexpected)
  end.

Definition send_violation_alert (e : FrameEnv) (bot_token chat_id : string)
    (image_path : option string) (violations : list Detection) : M unit :=
  match violations with
  | [] => emit (Printed LineNoViolations)
  | _ :: _ =>
      try_except
        (call (NewBot bot_token) (bot_ctor e);;
         let message := alert_caption violations in
         if image_available e image_path
         then
           let photo := default ""%string image_path in
           call (OpenFile photo) (open_photo e);;
           call (SendPhoto chat_id photo message) (send_photo e);;
           emit (Printed LineAlertSent)
         else emit (Printed (LineScreenshotNotFound image_path)))
        (alert_handler image_path)
  end.

(** ** detect.py: [SafetyDetector.process_video] *)

(** The test of line 111:
    [self.last_alert_time is None or
     (current_time - self.last_alert_time) > self.min_alert_interval]. *)
Definition alert_due (last : option Z) (min_interval current_time : Z) : bool :=
  match last with
  | None => true
  | Some l => min_interval <? current_time - l
  end.

(** Lines 109-118: the Telegram alert with its cooldown. The arguments of the
    call are evaluated before the call, so an unbound [screenshot_path]
    raises before the sender runs and before line 118. *)
Definition alert_with_cooldown (cfg : Config) (e : FrameEnv)
    (violations : list Detection) : M unit :=
  if enable_alerts cfg then
    let current_time := now e in
    st ← get_state;
    if alert_due (last_alert_time st) (min_alert_interval st) current_time then
      image_path ← read_screenshot_path;
      send_violation_alert e (bot_token cfg) (chat_id cfg) image_path violations;;
      set_last_alert_time current_time
    else mret ()
  else mret ().

(** Lines 96-118: what is done for a frame with violations. *)
Definition handle_violations (cfg : Config) (e : FrameEnv)
    (violations : list Detection) : M unit :=
  match violations with
  | [] => mret ()
  | _ :: _ =>
      incr_violation_count;;
      st ← get_state;
      emit (Printed (LineFrameViolations (frame_count st) (length violations)));;
      (if save_screenshots cfg then
         p ← save_violation_screenshot e violations (screenshot_dir cfg);
         set_screenshot_path p
       else mret ());;
      alert_with_cooldown cfg e violations
  end.

(** How an iteration of the [while] loop ends. *)
Inductive Ctl := Continue | Break.

(** Lines 120-128: the frame is written to the output video and shown. *)
Definition finish_frame (cfg : Config) (e : FrameEnv) : M Ctl :=
  (if save_output cfg then emit VideoWrite else mret ());;
  if show_preview cfg then
    emit Imshow;;
    if key_is_q e then mret Break else mret Continue
  else mret Continue.

(** Line 93: [draw_boxes(frame, results[0], violations)]; [results[0]]
    raises [IndexError] on an empty list. *)
Definition draw_frame (e : FrameEnv) (violations : list Detection)
    : Exn + list DrawOp :=
  match env_results e with
  | [] => inl IndexError
  | result :: _ => draw_boxes (frame_draw e) result violations
  end.

(** Lines 84-128: the body of the loop for a frame that was read. The
    annotated frame is drawn, or the exception of line 93 leaves the loop;
    what is then saved, written and shown does not depend on the drawing. *)
Definition process_frame (cfg : Config) (e : FrameEnv) : M Ctl :=
  incr_frame_count;;
  let results := env_results e in
  violations ← (match detect_violations cfg results with
                | inl ex => raise ex
                | inr vs => mret vs
                end);
  (match draw_frame e violations with
   | inl ex => raise ex
   | inr _ => mret ()
   end);;
  handle_violations cfg e violations;;
  finish_frame cfg e.

(** The [while] loop over the frames the source delivers; it stops at the
    end of the stream, at [break] or at an exception. *)
Fixpoint run_frames (cfg : Config) (frames : list FrameEnv) : M unit :=
  match frames with
  | [] => mret ()
  | e :: frames' =>
      c ← process_frame cfg e;
      match c with
      | Break => mret ()
      | Continue => run_frames cfg frames'
      end
  end.

Definition process_video (cfg : Config) (frames : list FrameEnv) : M unit :=
  enter_process_video;;
  emit (Printed LineProcessing);;
  run_frames cfg frames;;
  st ← get_state;
  emit (Printed (LineComplete (frame_count st) (violation_count st))).

(** ** The cooldown seen alone

    The AlertRateLimiter of the specification, read off the code: one run of
    lines 109-118 ([alert_with_cooldown]) at clock reading [t], with alerts
    enabled, in a state that holds [last] and [min_interval] and has
    [screenshot_path] bound. The answer is whether the sender was called,
    with the alert time the run leaves. Lemma [should_dispatch_eq] gives its
    value, lemma [alert_with_cooldown_should_dispatch] relates it to any
    other run of these lines. *)
Definition cooldown_cfg : Config :=
  mkConfig 0%float [] true "" 0 true "" "" false false.

Definition clock_reading (t : Z) : FrameEnv :=
  mkFrameEnv [] "" false t None (λ _, false) None None false
    (mkDrawEnv (λ _, 0) "" (λ _, true)).

Definition should_dispatch (min_interval : Z) (last : option Z) (t : Z)
    : bool * option Z :=
  let st := mkState last min_interval 0 0 (Some None) [] in
  let st' := snd (alert_with_cooldown cooldown_cfg (clock_reading t) [] st) in
  (match trace st' with [] => false | _ :: _ => true end, last_alert_time st').

(** ** Observations on traces and states *)

(** The sender reached the network: it built a bot or sent a photo. *)
Definition is_network (ev : Event) : bool :=
  match ev with
  | NewBot _ | SendPhoto _ _ _ => true
  | _ => false
  end.

Definition is_send (ev : Event) : bool :=
  match ev with
  | SendPhoto _ _ _ => true
  | _ => false
  end.

(** The events that a run from [st] to [st'] added to the trace. *)
Definition new_events (st st' : State) : list Event :=
  drop (length (trace st)) (trace st').

(** What [send_violation_alert] adds to the trace; by lemma
    [send_violation_alert_run] this is all it does. *)
Definition alert_events (e : FrameEnv) (token chat : string)
    (image_path : option string) (violations : list Detection) : list Event :=
  trace (snd (send_violation_alert e token chat image_path violations
                (mkState None 0 0 0 None []))).

(** [m], run from a state that satisfies [P], ends (returning or raising)
    in a state related to the first by [R]. *)
Definition run_rel {A} (P : State → Prop) (R : State → State → Prop) (m : M A) : Prop :=
  ∀ st, P st → R st (snd (m st)).

(** A run that leaves the cooldown alone and does not reach the network. *)
Definition silent (st st' : State) : Prop :=
  last_alert_time st' = last_alert_time st
  ∧ min_alert_interval st' = min_alert_interval st
  ∧ ∃ evs, trace st' = trace st ++ evs ∧ Forall (λ ev, is_network ev = false) evs.

(** Some event of the trace is a photo sent to the chat. *)
Definition notification_sent (evs : list Event) : bool := existsb is_send evs.

(** ** Concrete inputs

    The scenario of section 8 of the specification: the classes
    [no_helmet] and [person], a threshold of 0.5, a cooldown of ten seconds. *)
Definition helmet_cfg : Config :=
  mkConfig 0.5%float ["no_helmet"%string] true "shots" 10 true "token" "chat"
    false false.

(** The same configuration with [save_screenshots: false]. *)
Definition no_shots_cfg : Config :=
  mkConfig 0.5%float ["no_helmet"%string] false "shots" 10 true "token" "chat"
    false false.

Definition helmet_names : gmap Z string :=
  <[0 := "no_helmet"%string]> (<[1 := "person"%string]> ∅).

(** A [no_helmet] at 0.9 and a [person] at 0.99, with their boxes. *)
Definition helmet_results : list Result :=
  [mkResult [mkBox 0 0x1.ccccccccccccdp-1%float [10.5; 20.25; 110; 220.75]%float;
             mkBox 1 0x1.fae147ae147aep-1%float [300; 40; 380; 260]%float]
     helmet_names].

Definition helmet_violation : Detection :=
  mkDetection "no_helmet" 0x1.ccccccccccccdp-1%float
    [10.5; 20.25; 110; 220.75]%float.

(** Labels eighty pixels wide, and an OpenCV that accepts every call. *)
Definition plain_draw_env : DrawEnv :=
  mkDrawEnv (λ _, 80) "2024-01-01 12:00:00" (λ _, true).

(** A frame showing [helmet_results] at time [t]: [cv2.imwrite] answers
    [shot_ok], [send_photo] does [send]; every path exists and nothing else
    raises. *)
Definition helmet_frame (shot_ok : bool) (t : Z) (send : option Exn) : FrameEnv :=
  mkFrameEnv helmet_results "20240101_120000" shot_ok t None (λ _, true) None send
    false plain_draw_env.

(** What [draw_boxes] draws on such a frame. *)
Definition helmet_ops : list DrawOp :=
  [Rectangle (10, 20) (110, 220) red 2;
   Rectangle (10, -5) (90, 20) red (-1);
   PutText (BoxLabel true "no_helmet" 0x1.ccccccccccccdp-1%float) (10, 15)
     0.5%float white 2;
   Rectangle (300, 40) (380, 260) green 2;
   Rectangle (300, 15) (380, 40) green (-1);
   PutText (BoxLabel false "person" 0x1.fae147ae147aep-1%float) (300, 35)
     0.5%float white 2;
   PutText (TimestampText "2024-01-01 12:00:00") (10, 30) 1%float white 2;
   PutText (ViolationsText 1) (10, 70) 1%float red 2].

(** A frame that shows only a [person]. *)
Definition person_frame : FrameEnv :=
  mkFrameEnv
    [mkResult [mkBox 1 0x1.fae147ae147aep-1%float [300; 40; 380; 260]%float]
       helmet_names]
    "20240101_120000" true 0 None (λ _, true) None None false plain_draw_env.

(** The order on [last_alert_time]: never set is below every instant. *)
Definition time_le (a b : option Z) : Prop :=
  match a, b with
  | None, _ => True
  | Some x, Some y => x ≤ y
  | Some _, None => False
  end.

(** A run whose recorded alert time did not go back. *)
Definition no_earlier (st st' : State) : Prop :=
  min_alert_interval st' = min_alert_interval st
  ∧ time_le (last_alert_time st) (last_alert_time st').

(** ** alert.py: [test_telegram_connection]

    The function is not called by the detector; it is modelled on its own,
    with the events it causes. *)

(** What [telegram.Bot] and [bot.send_message] do when it runs. *)
Record ConnEnv := mkConnEnv {
  conn_bot_ctor : option Exn;       (* telegram.Bot raises? *)
  conn_send_message : option Exn    (* bot.send_message raises? *)
}.

Inductive ConnLine :=
| LineConnectionOk                  (* "Telegram connection successful!" *)
| LineConnectionFailed              (* "Telegram connection failed: ..." *)
| LineConnectionUnexpected.         (* "Unexpected error: ..." *)

Inductive ConnEvent :=
| ConnNewBot (token : string)
| ConnSendMessage (chat text : string)
| ConnPrinted (line : ConnLine).

Definition active_text : string :=
  "🤖 Worker Safety Detection System is now active!".

(** The two [except] clauses: both print and return [False]. *)
Definition conn_handler (done : list ConnEvent) (ex : Exn) : bool * list ConnEvent :=
  match ex with
  | TelegramError => (false, done ++ [ConnPrinted LineConnectionFailed])
  | _ => (false, done ++ [ConnPrinted LineConnectionUnexpected])
  end.

(** The value returned and the events caused, in order. *)
Definition test_telegram_connection (env : ConnEnv) (bot_token chat_id : string)
    : bool * list ConnEvent :=
  match conn_bot_ctor env with
  | Some ex => conn_handler [ConnNewBot bot_token] ex
  | None =>
      match conn_send_message env with
      | Some ex =>
          conn_handler [ConnNewBot bot_token; ConnSendMessage chat_id active_text] ex
      | None =>
          (true, [ConnNewBot bot_token; ConnSendMessage chat_id active_text;
                  ConnPrinted LineConnectionOk])
      end
  end.

(** ** detect.py: [main] *)


(** ** More observations *)

Definition is_imwrite (ev : Event) : bool :=
  match ev with ImWrite _ => true | _ => false end.

Definition is_printed (ev : Event) : bool :=
  match ev with Printed _ => true | _ => false end.

(** The file [save_violation_screenshot] writes for a frame. *)
Definition screenshot_file (cfg : Config) (e : FrameEnv) : string :=
  path_join (screenshot_dir cfg) ("violation_" +:+ shot_stamp e +:+ ".jpg").

(** The state in which a frame with violations reaches line 109: the frame
    is counted as a violation frame, the line is printed and, when
    screenshots are enabled, the screenshot is written and its path (or
    [None]) is bound. *)
Definition before_alert (cfg : Config) (e : FrameEnv) (n : nat) (st : State) : State :=
  let st1 :=
    add_trace [Printed (LineFrameViolations (frame_count st) n)]
      (snd (incr_violation_count st)) in
  if save_screenshots cfg then
    let st2 :=
      add_trace [ImWrite (screenshot_file cfg e);
                 Printed (if imwrite_ok e
                          then LineScreenshotSaved (screenshot_file cfg e)
                          else LineScreenshotFailed (screenshot_file cfg e))]
        st1 in
    snd (set_screenshot_path
           (if imwrite_ok e then Some (screenshot_file cfg e) else None) st2)
  else st1.

Global Arguments before_alert : simpl never.

(** The events of the end of a frame (lines 120-128). *)
Definition finish_events (cfg : Config) : list Event :=
  (if save_output cfg then [VideoWrite] else [])
  ++ (if show_preview cfg then [Imshow] else []).

(** A result with coordinates: a [no_helmet] at 0.9, a [person] at 0.99 and
    a second [no_helmet] at 0.3, below the threshold of [helmet_cfg]. *)
Definition street_result : Result :=
  mkResult [mkBox 0 0x1.ccccccccccccdp-1%float [10.5; 20.25; 110; 220.75]%float;
            mkBox 1 0x1.fae147ae147aep-1%float [300; 40; 380; 260]%float;
            mkBox 0 0x1.3333333333333p-2%float [500; 60.5; 560; 250]%float]
    helmet_names.

Definition street_violation : Detection :=
  mkDetection "no_helmet" 0x1.ccccccccccccdp-1%float
    [10.5; 20.25; 110; 220.75]%float.

(** What [draw_boxes] draws for [street_result] and its one violation: the
    second [no_helmet] is red too. *)
Definition street_ops : list DrawOp :=
  [Rectangle (10, 20) (110, 220) red 2;
   Rectangle (10, -5) (90, 20) red (-1);
   PutText (BoxLabel true "no_helmet" 0x1.ccccccccccccdp-1%float) (10, 15)
     0.5%float white 2;
   Rectangle (300, 40) (380, 260) green 2;
   Rectangle (300, 15) (380, 40) green (-1);
   PutText (BoxLabel false "person" 0x1.fae147ae147aep-1%float) (300, 35)
     0.5%float white 2;
   Rectangle (500, 60) (560, 250) red 2;
   Rectangle (500, 35) (580, 60) red (-1);
   PutText (BoxLabel true "no_helmet" 0x1.3333333333333p-2%float) (500, 55)
     0.5%float white 2;
   PutText (TimestampText "2024-01-01 12:00:00") (10, 30) 1%float white 2;
   PutText (ViolationsText 1) (10, 70) 1%float red 2].

(** The ways a frame can go, each with the value and the state that
    [process_frame] ends with (lemma [process_frame_cases]). *)
Inductive FrameCase (cfg : Config) (e : FrameEnv) (st : State)
    : (Exn + Ctl) * State → Prop :=
| ScanRaises ex :
    detect_violations cfg (env_results e) = inl ex →
    FrameCase cfg e st (inl ex, snd (incr_frame_count st))
| DrawRaises vs ex :
    detect_violations cfg (env_results e) = inr vs →
    draw_frame e vs = inl ex →
    FrameCase cfg e st (inl ex, snd (incr_frame_count st))
| NoViolation ops :
    detect_violations cfg (env_results e) = inr [] →
    draw_frame e [] = inr ops →
    FrameCase cfg e st (finish_frame cfg e (snd (incr_frame_count st)))
| Suppressed v vs ops st2 :
    detect_violations cfg (env_results e) = inr (v :: vs) →
    draw_frame e (v :: vs) = inr ops →
    st2 = before_alert cfg e (length (v :: vs)) (snd (incr_frame_count st)) →
    enable_alerts cfg = false
    ∨ alert_due (last_alert_time st) (min_alert_interval st) (now e) = false →
    FrameCase cfg e st (finish_frame cfg e st2)
| Unbound v vs ops st2 :
    detect_violations cfg (env_results e) = inr (v :: vs) →
    draw_frame e (v :: vs) = inr ops →
    st2 = before_alert cfg e (length (v :: vs)) (snd (incr_frame_count st)) →
    enable_alerts cfg = true →
    alert_due (last_alert_time st) (min_alert_interval st) (now e) = true →
    screenshot_path st2 = None →
    FrameCase cfg e st (inl (UnboundLocalError "screenshot_path"), st2)
| Dispatched v vs ops st2 ip :
    detect_violations cfg (env_results e) = inr (v :: vs) →
    draw_frame e (v :: vs) = inr ops →
    st2 = before_alert cfg e (length (v :: vs)) (snd (incr_frame_count st)) →
    enable_alerts cfg = true →
    alert_due (last_alert_time st) (min_alert_interval st) (now e) = true →
    screenshot_path st2 = Some ip →
    FrameCase cfg e st
      (finish_frame cfg e
         (record_alert (now e)
            (add_trace (alert_events e (bot_token cfg) (chat_id cfg) ip (v :: vs))
               st2))).

(** The number of calls of [cv2.imwrite] so far, whether the file was
    written or not. *)
Definition imwrite_calls (st : State) : Z :=
  Z.of_nat (length (List.filter is_imwrite (trace st))).

(** The screenshots written so far: the lines "Screenshot saved", printed
    when [cv2.imwrite] answered true. *)
Definition is_saved (ev : Event) : bool :=
  match ev with Printed (LineScreenshotSaved _) => true | _ => false end.

Definition screenshots_saved (st : State) : Z :=
  Z.of_nat (length (List.filter is_saved (trace st))).

(** The sender was called while the frame was processed: the frame reached
    the network. *)
Definition dispatched (cfg : Config) (e : FrameEnv) (st : State) : bool :=
  existsb is_network (new_events st (snd (process_frame cfg e st))).

(** The clock readings of the frames of a run of the loop at which the
    sender was called, in order. *)
Fixpoint dispatch_times (cfg : Config) (frames : list FrameEnv) (st : State)
    : list Z :=
  match frames with
  | [] => []
  | e :: frames' =>
      (if dispatched cfg e st then [now e] else [])
      ++ match process_frame cfg e st with
         | (inr Continue, st') => dispatch_times cfg frames' st'
         | _ => []
         end
  end.

(** The instants [ts] are each due when they come: the first after
    [last], every other one after the one before it. *)
Fixpoint due_in_turn (min_interval : Z) (last : option Z) (ts : list Z) : Prop :=
  match ts with
  | [] => True
  | t :: ts' =>
      alert_due last min_interval t = true ∧ due_in_turn min_interval (Some t) ts'
  end.

(** ** Properties of the filter *)

Lemma is_violation_qualifies cfg d :
  is_violation cfg (d_class d) (d_confidence d) = true
  ↔ qualifies (violation_classes cfg) (confidence_threshold cfg) d.
Proof.
  unfold is_violation, qualifies, class_in, float_gt.
  rewrite andb_true_iff, bool_decide_eq_true. reflexivity.
Qed.

Lemma filter_qualifies_cons cfg d ds :
  filter (qualifies (violation_classes cfg) (confidence_threshold cfg)) (d :: ds)
  = if is_violation cfg (d_class d) (d_confidence d)
    then d :: filter (qualifies (violation_classes cfg) (confidence_threshold cfg)) ds
    else filter (qualifies (violation_classes cfg) (confidence_threshold cfg)) ds.
Proof.
  destruct (is_violation cfg (d_class d) (d_confidence d)) eqn:E.
  - apply filter_cons_True. by apply is_violation_qualifies.
  - apply filter_cons_False. rewrite <- is_violation_qualifies. congruence.
Qed.

Lemma scan_boxes_spec cfg nm bs acc :
  scan_boxes cfg nm bs acc
  = map_inr (λ ds, acc ++ filter (qualifies (violation_classes cfg)
                                    (confidence_threshold cfg)) ds)
            (box_detections nm bs).
Proof.
  revert acc. induction bs as [|box bs IH]; intros acc; simpl.
  - by rewrite app_nil_r.
  - destruct (nm !! cls box) as [class_name|]; [|done].
    destruct (is_violation cfg class_name (conf box)) eqn:E; rewrite IH;
      destruct (box_detections nm bs) as [e|ds]; simpl; try done;
      rewrite filter_qualifies_cons; simpl; rewrite E; [|done].
    by rewrite <- app_assoc.
Qed.

Lemma scan_results_spec cfg results acc :
  scan_results cfg results acc
  = map_inr (λ ds, acc ++ filter (qualifies (violation_classes cfg)
                                    (confidence_threshold cfg)) ds)
            (detections results).
Proof.
  revert acc. induction results as [|r results IH]; intros acc; simpl.
  - by rewrite app_nil_r.
  - rewrite scan_boxes_spec.
    destruct (box_detections (names r) (boxes r)) as [e|ds]; simpl; [done|].
    rewrite IH. destruct (detections results) as [e|ds']; simpl; [done|].
    by rewrite filter_app, app_assoc.
Qed.

Lemma detect_violations_filter cfg results :
  detect_violations cfg results
  = map_inr (filter (qualifies (violation_classes cfg) (confidence_threshold cfg)))
            (detections results).
Proof. unfold detect_violations. by rewrite scan_results_spec. Qed.

Lemma SFltb_irrefl s : SFltb s s = false.
Proof.
  unfold SFltb, SFcompare.
  destruct s as [[]|[]| |[] m e]; try reflexivity;
    rewrite Z.compare_refl, Pos.compare_refl; reflexivity.
Qed.

Lemma float_gt_irrefl x : float_gt x x = false.
Proof. unfold float_gt. rewrite ltb_spec. apply SFltb_irrefl. Qed.

(** A list of results whose class ids are all named presents a sequence of
    detections, so the scan returns. *)
Lemma box_detections_total nm bs :
  Forall (λ box, is_Some (nm !! cls box)) bs → ∃ ds, box_detections nm bs = inr ds.
Proof.
  induction 1 as [|box bs [c Hc] _ [ds IH]]; simpl; [by eexists|].
  rewrite Hc, IH. by eexists.
Qed.

Lemma detections_total results :
  Forall (λ r, Forall (λ box, is_Some (names r !! cls box)) (boxes r)) results →
  ∃ ds, detections results = inr ds.
Proof.
  induction 1 as [|r results Hr _ [ds' IH]]; simpl; [by eexists|].
  destruct (box_detections_total _ _ Hr) as [ds ->]. rewrite IH. by eexists.
Qed.

(** The boundary case of section 8: threshold 0.5, confidence 0.5 is
    excluded and a confidence just above it is included. *)
Example boundary_excluded :
  detect_violations helmet_cfg [mkResult [mkBox 0 0.5%float []] helmet_names]
  = inr [].
Proof. vm_compute. reflexivity. Qed.

Example boundary_included :
  detect_violations helmet_cfg
    [mkResult [mkBox 0 0x1.00014f8b588e3p-1%float []] helmet_names]
  = inr [mkDetection "no_helmet" 0x1.00014f8b588e3p-1%float []].
Proof. vm_compute. reflexivity. Qed.

(** The end-to-end scenario of section 8. *)
Example end_to_end_filter :
  detect_violations helmet_cfg
    [mkResult [mkBox 0 0x1.ccccccccccccdp-1%float [];
               mkBox 1 0x1.fae147ae147aep-1%float []] helmet_names]
  = inr [mkDetection "no_helmet" 0x1.ccccccccccccdp-1%float []].
Proof. vm_compute. reflexivity. Qed.

(** C1. For every configuration (violation classes and threshold) and every
    list of results, [detect_violations] returns exactly the detections the
    results present that have their class in the violation classes and a
    confidence strictly greater than the threshold, in the order of the input
    (and raises exactly when presenting the detections raises); a confidence
    equal to the threshold never passes the test. *)
Theorem detect_violations_exact_filter (cfg : Config) (results : list Result) :
  detect_violations cfg results
  = map_inr (filter (qualifies (violation_classes cfg) (confidence_threshold cfg)))
            (detections results)
  ∧ ∀ class_name, is_violation cfg class_name (confidence_threshold cfg) = false.
Proof.
  split; [apply detect_violations_filter|].
  intros c. unfold is_violation. rewrite float_gt_irrefl. apply andb_false_r.
Qed.

(** C7. The filter is idempotent: when [detect_violations] returns [vs] on
    some results, it returns [vs] again on any results that present exactly
    the detections [vs], under the same configuration. *)
Theorem detect_violations_idempotent (cfg : Config) (results results' : list Result)
    (vs : list Detection) :
  detect_violations cfg results = inr vs →
  detections results' = inr vs →
  detect_violations cfg results' = inr vs.
Proof.
  rewrite !detect_violations_filter. intros H1 H2. rewrite H2. simpl.
  destruct (detections results) as [e|ds]; simpl in H1; [done|].
  injection H1 as <-. f_equal.
  by apply list_filter_filter_l.
Qed.

Lemma detect_violations_idempotent_witness :
  let results := [mkResult [mkBox 0 0x1.ccccccccccccdp-1%float [];
                            mkBox 1 0x1.fae147ae147aep-1%float []] helmet_names] in
  let results' := [mkResult [mkBox 0 0x1.ccccccccccccdp-1%float []] helmet_names] in
  let vs := [mkDetection "no_helmet" 0x1.ccccccccccccdp-1%float []] in
  detect_violations helmet_cfg results = inr vs
  ∧ detections results' = inr vs
  ∧ detect_violations helmet_cfg results' = inr vs.
Proof.
  intros results results' vs.
  assert (H1 : detect_violations helmet_cfg results = inr vs)
    by (vm_compute; reflexivity).
  assert (H2 : detections results' = inr vs) by (vm_compute; reflexivity).
  exact (conj H1 (conj H2
           (detect_violations_idempotent helmet_cfg results results' vs H1 H2))).
Defined.

(** ** The alert sender *)

Lemma new_events_app st st' evs :
  trace st' = trace st ++ evs → new_events st st' = evs.
Proof. intros H. unfold new_events. rewrite H. apply drop_app_length. Qed.

(** C10. With an empty list of violations [send_violation_alert] returns at
    once, for every bot token, chat id and image path and whatever the
    environment would answer: it prints one line, builds no bot and sends
    nothing, and leaves the rest of the state as it was. *)
Theorem send_violation_alert_empty (e : FrameEnv) (token chat : string)
    (image_path : option string) (st : State) :
  send_violation_alert e token chat image_path [] st
  = (inr (), add_trace [Printed LineNoViolations] st)
  ∧ Forall (λ ev, is_network ev = false)
      (new_events st (snd (send_violation_alert e token chat image_path [] st))).
Proof.
  split; [reflexivity|].
  rewrite (new_events_app st _ [Printed LineNoViolations]) by reflexivity.
  by repeat constructor.
Qed.

(** ** The order on alert times *)

Lemma time_le_trans a b c : time_le a b → time_le b c → time_le a c.
Proof. destruct a, b, c; simpl; try done; lia. Qed.

Lemma time_le_refl a : time_le a a.
Proof. destruct a; simpl; [lia|done]. Qed.

(** ** Reasoning about runs *)

Section RunRel.
Variable P : State → Prop.
Variable R : State → State → Prop.
Hypothesis R_trans : ∀ a b c, R a b → R b c → R a c.
Hypothesis P_stable : ∀ st st', P st → R st st' → P st'.

Lemma run_rel_bind {A B} (m : M A) (f : A → M B) :
    run_rel P R m → (∀ a, run_rel P R (f a)) → run_rel P R (m ≫= f).
  Proof.
    intros Hm Hf st HP. specialize (Hm st HP).
    unfold mbind, M_bind. destruct (m st) as [[e|a] st']; simpl in *; [done|].
    eapply R_trans; [exact Hm|]. apply Hf. by eapply P_stable.
  Qed.

End RunRel.

Lemma silent_refl st : silent st st.
Proof. repeat split. exists []. by rewrite app_nil_r. Qed.

Lemma silent_trans a b c : silent a b → silent b c → silent a c.
Proof.
  intros (Hl & Hm & evs & Ht & Hn) (Hl' & Hm' & evs' & Ht' & Hn').
  repeat split; [congruence..|].
  exists (evs ++ evs'). split; [by rewrite Ht', Ht, app_assoc|by apply Forall_app].
Qed.

Lemma silent_add_trace evs st :
  Forall (λ ev, is_network ev = false) evs → silent st (add_trace evs st).
Proof. intros H. repeat split. by exists evs. Qed.

Lemma no_earlier_trans a b c : no_earlier a b → no_earlier b c → no_earlier a c.
Proof.
  intros [Hm Hl] [Hm' Hl']. split; [congruence|by eapply time_le_trans].
Qed.

Lemma silent_no_earlier st st' : silent st st' → no_earlier st st'.
Proof. intros (Hl & Hm & _). split; [done|]. rewrite Hl. apply time_le_refl. Qed.

(** *** The parts of the loop body that are silent *)

Section Silent.
Variable P : State → Prop.

Lemma silent_ret {A} (a : A) : run_rel P silent (mret a).
  Proof. intros st _. apply silent_refl. Qed.

Lemma silent_raise {A} ex : run_rel P silent (raise (A:=A) ex).
  Proof. intros st _. apply silent_refl. Qed.

Lemma silent_emit ev : is_network ev = false → run_rel P silent (emit ev).
  Proof. intros H st _. apply silent_add_trace. by constructor. Qed.

Lemma silent_get_state : run_rel P silent get_state.
  Proof. intros st _. apply silent_refl. Qed.

Lemma silent_set_screenshot_path p : run_rel P silent (set_screenshot_path p).
  Proof. intros st _. repeat split. exists []. simpl. by rewrite app_nil_r. Qed.

Lemma silent_incr_frame_count : run_rel P silent incr_frame_count.
  Proof. intros st _. repeat split. exists []. simpl. by rewrite app_nil_r. Qed.

Lemma silent_incr_violation_count : run_rel P silent incr_violation_count.
  Proof. intros st _. repeat split. exists []. simpl. by rewrite app_nil_r. Qed.

Lemma silent_save_violation_screenshot e vs dir :
    run_rel P silent (save_violation_screenshot e vs dir).
  Proof.
    intros st _. unfold save_violation_screenshot.
    destruct (imwrite_ok e); simpl; repeat split; eexists [_; _]; simpl;
      (split; [by rewrite <- app_assoc|by repeat constructor]).
  Qed.
End Silent.

Lemma silent_finish_frame (P : State → Prop) cfg e : run_rel P silent (finish_frame cfg e).
Proof.
  intros st _. unfold finish_frame.
  destruct (save_output cfg), (show_preview cfg), (key_is_q e); simpl;
    first [apply silent_refl | apply silent_add_trace; by repeat constructor
          | repeat split; eexists [_; _]; simpl;
            (split; [by rewrite <- app_assoc|by repeat constructor])].
Qed.

(** ** The alert sender never raises *)

Lemma add_trace_add_trace evs evs' st :
  add_trace evs' (add_trace evs st) = add_trace (evs ++ evs') st.
Proof. unfold add_trace. simpl. by rewrite app_assoc. Qed.

(** [send_violation_alert] returns [None] whatever its calls do, and changes
    nothing but the trace. *)
Lemma send_violation_alert_run e token chat ip vs st :
  send_violation_alert e token chat ip vs st
  = (inr (), add_trace (alert_events e token chat ip vs) st).
Proof.
  unfold alert_events. destruct vs as [|v vs]; [reflexivity|].
  unfold send_violation_alert, try_except, call, mbind, M_bind, emit, raise.
  simpl.
  destruct (bot_ctor e) as [ex|]; simpl.
  { destruct ex; simpl; unfold emit; rewrite add_trace_add_trace; reflexivity. }
  destruct (image_available e ip); simpl.
  - destruct (open_photo e) as [ex|]; simpl.
    { destruct ex; simpl; unfold emit; rewrite !add_trace_add_trace; reflexivity. }
    destruct (send_photo e) as [ex|]; simpl.
    { destruct ex; simpl; unfold emit; rewrite !add_trace_add_trace; reflexivity. }
    unfold emit. rewrite !add_trace_add_trace. reflexivity.
  - unfold emit. rewrite !add_trace_add_trace. reflexivity.
Qed.

Lemma alert_events_head e token chat ip v vs :
  ∃ evs, alert_events e token chat ip (v :: vs) = NewBot token :: evs.
Proof.
  unfold alert_events, send_violation_alert, try_except, call, mbind, M_bind,
    emit, raise. simpl.
  destruct (bot_ctor e) as [ex|]; simpl.
  { destruct ex; simpl; by eexists. }
  destruct (image_available e ip); simpl; [|by eexists].
  destruct (open_photo e) as [ex|]; simpl.
  { destruct ex; simpl; by eexists. }
  destruct (send_photo e) as [ex|]; simpl; [destruct ex; simpl|]; by eexists.
Qed.

(** Without an image that exists nothing is sent: the sender prints
    "Screenshot not found" (or an error of the bot) and returns. *)
Lemma alert_events_no_image e token chat ip vs :
  image_available e ip = false →
  Forall (λ ev, is_send ev = false) (alert_events e token chat ip vs)
  ∧ (bot_ctor e = None → vs ≠ [] →
     alert_events e token chat ip vs
     = [NewBot token; Printed (LineScreenshotNotFound ip)]).
Proof.
  intros Hi. unfold alert_events. destruct vs as [|v vs].
  { split; [by repeat constructor|done]. }
  unfold send_violation_alert, try_except, call, mbind, M_bind, emit, raise.
  simpl. rewrite Hi.
  destruct (bot_ctor e) as [ex|]; simpl.
  - split; [|done]. destruct ex; simpl; by repeat constructor.
  - split; [by repeat constructor|done].
Qed.

(** ** The alert with its cooldown (lines 109-118) *)

Lemma alert_with_cooldown_dispatch cfg e vs st ip :
  enable_alerts cfg = true →
  alert_due (last_alert_time st) (min_alert_interval st) (now e) = true →
  screenshot_path st = Some ip →
  alert_with_cooldown cfg e vs st
  = (inr (), record_alert (now e)
               (add_trace (alert_events e (bot_token cfg) (chat_id cfg) ip vs) st)).
Proof.
  intros He Hd Hp.
  unfold alert_with_cooldown, mbind, M_bind, get_state, read_screenshot_path.
  rewrite He, Hd, Hp, send_violation_alert_run. reflexivity.
Qed.

Lemma alert_with_cooldown_unbound cfg e vs st :
  enable_alerts cfg = true →
  alert_due (last_alert_time st) (min_alert_interval st) (now e) = true →
  screenshot_path st = None →
  alert_with_cooldown cfg e vs st = (inl (UnboundLocalError "screenshot_path"), st).
Proof.
  intros He Hd Hp.
  unfold alert_with_cooldown, mbind, M_bind, get_state, read_screenshot_path.
  by rewrite He, Hd, Hp.
Qed.

Lemma alert_with_cooldown_suppressed cfg e vs st :
  enable_alerts cfg = false
  ∨ alert_due (last_alert_time st) (min_alert_interval st) (now e) = false →
  alert_with_cooldown cfg e vs st = (inr (), st).
Proof.
  unfold alert_with_cooldown, mbind, M_bind, get_state.
  intros [H|H]; destruct (enable_alerts cfg); try done. by rewrite H.
Qed.

(** What the run that defines [should_dispatch] gives. *)
Lemma should_dispatch_eq m last t :
  should_dispatch m last t
  = if alert_due last m t then (true, Some t) else (false, last).
Proof.
  unfold should_dispatch. destruct (alert_due last m t) eqn:Hd.
  - by rewrite (alert_with_cooldown_dispatch _ _ _ _ None).
  - by rewrite alert_with_cooldown_suppressed by (by right).
Qed.

(** The code and [should_dispatch] agree: when alerts are enabled and the
    variable [screenshot_path] is bound, lines 109-118 call the sender
    exactly when [should_dispatch] answers true, and leave in
    [last_alert_time] the state [should_dispatch] returns. *)
Lemma alert_with_cooldown_should_dispatch cfg e vs st ip :
  enable_alerts cfg = true →
  screenshot_path st = Some ip →
  let d := should_dispatch (min_alert_interval st) (last_alert_time st) (now e) in
  alert_with_cooldown cfg e vs st
  = (inr (),
     if fst d
     then record_alert (now e)
            (add_trace (alert_events e (bot_token cfg) (chat_id cfg) ip vs) st)
     else st)
  ∧ last_alert_time (snd (alert_with_cooldown cfg e vs st)) = snd d.
Proof.
  intros He Hp. rewrite should_dispatch_eq.
  destruct (alert_due (last_alert_time st) (min_alert_interval st) (now e)) eqn:Hd.
  - rewrite (alert_with_cooldown_dispatch _ _ _ _ ip) by done. done.
  - rewrite alert_with_cooldown_suppressed by auto. done.
Qed.

(** ** The loop body *)

Lemma detect_violations_nil cfg : detect_violations cfg [] = inr [].
Proof. reflexivity. Qed.

(** The state in which a frame with violations reaches line 109. *)
Lemma handle_violations_run cfg e v vs st :
  ∃ st2,
    handle_violations cfg e (v :: vs) st = alert_with_cooldown cfg e (v :: vs) st2
    ∧ silent st st2
    ∧ screenshot_path st2
      = if save_screenshots cfg
        then Some (if imwrite_ok e
                   then Some (path_join (screenshot_dir cfg)
                                ("violation_" +:+ shot_stamp e +:+ ".jpg"))
                   else None)
        else screenshot_path st.
Proof.
  unfold handle_violations, save_violation_screenshot, mbind, M_bind, emit,
    get_state, incr_violation_count, set_screenshot_path, mret, M_ret.
  simpl.
  destruct (save_screenshots cfg); [destruct (imwrite_ok e)|]; simpl;
    eexists; (split; [reflexivity|]); (split; [|reflexivity]);
    repeat split; simpl; eexists; (split; [by rewrite <- ?app_assoc|]);
    by repeat constructor.
Qed.

Lemma finish_frame_run cfg e st :
  ∃ c st', finish_frame cfg e st = (inr c, st') ∧ silent st st'
           ∧ screenshot_path st' = screenshot_path st.
Proof.
  pose proof (silent_finish_frame (λ _, True) cfg e st I) as Hs. revert Hs.
  unfold finish_frame.
  destruct (save_output cfg), (show_preview cfg), (key_is_q e); simpl;
    intros Hs; by do 2 eexists.
Qed.

(** A frame in which the filter finds violations and that line 93 can draw
    reaches line 96 with the frame counted. *)
Lemma process_frame_violations cfg e v vs ops st :
  detect_violations cfg (env_results e) = inr (v :: vs) →
  draw_frame e (v :: vs) = inr ops →
  process_frame cfg e st
  = (handle_violations cfg e (v :: vs) ≫= λ _, finish_frame cfg e)
      (snd (incr_frame_count st)).
Proof.
  intros Hd Hdraw. unfold process_frame. unfold mbind at 1 2 3, M_bind at 1 2 3.
  simpl. rewrite Hd. simpl. by rewrite Hdraw.
Qed.

(** ** The loop body, case by case *)

Lemma add_trace_nil st : add_trace [] st = st.
Proof. destruct st. unfold add_trace. simpl. by rewrite app_nil_r. Qed.

Lemma finish_frame_state cfg e st :
  finish_frame cfg e st
  = (inr (if show_preview cfg && key_is_q e then Break else Continue),
     add_trace (finish_events cfg) st).
Proof.
  unfold finish_frame, finish_events, mbind, M_bind, emit.
  destruct (save_output cfg), (show_preview cfg), (key_is_q e); simpl;
    rewrite ?add_trace_add_trace, ?add_trace_nil; reflexivity.
Qed.

Lemma handle_violations_before_alert cfg e v vs st :
  handle_violations cfg e (v :: vs) st
  = alert_with_cooldown cfg e (v :: vs) (before_alert cfg e (length (v :: vs)) st).
Proof.
  unfold handle_violations, before_alert, save_violation_screenshot, screenshot_file,
    mbind, M_bind, emit, get_state, mret, M_ret.
  simpl. destruct (save_screenshots cfg); [|reflexivity].
  destruct (imwrite_ok e); simpl; unfold add_trace; simpl;
    by rewrite <- !app_assoc.
Qed.

Lemma before_alert_cooldown cfg e n st :
  last_alert_time (before_alert cfg e n st) = last_alert_time st
  ∧ min_alert_interval (before_alert cfg e n st) = min_alert_interval st.
Proof. unfold before_alert. by destruct (save_screenshots cfg). Qed.

Lemma before_alert_counters cfg e n st :
  frame_count (before_alert cfg e n st) = frame_count st
  ∧ violation_count (before_alert cfg e n st) = violation_count st + 1.
Proof. unfold before_alert. by destruct (save_screenshots cfg). Qed.

Lemma before_alert_screenshot_path cfg e n st :
  screenshot_path (before_alert cfg e n st)
  = if save_screenshots cfg
    then Some (if imwrite_ok e then Some (screenshot_file cfg e) else None)
    else screenshot_path st.
Proof. unfold before_alert. by destruct (save_screenshots cfg). Qed.

Lemma before_alert_trace cfg e n st :
  trace (before_alert cfg e n st)
  = trace st
    ++ Printed (LineFrameViolations (frame_count st) n)
       :: (if save_screenshots cfg
           then [ImWrite (screenshot_file cfg e);
                 Printed (if imwrite_ok e
                          then LineScreenshotSaved (screenshot_file cfg e)
                          else LineScreenshotFailed (screenshot_file cfg e))]
           else []).
Proof.
  unfold before_alert. destruct (save_screenshots cfg); simpl; [|done].
  by rewrite <- app_assoc.
Qed.

Lemma process_frame_cases cfg e st : FrameCase cfg e st (process_frame cfg e st).
Proof.
  destruct (detect_violations cfg (env_results e)) as [ex|vs0] eqn:Hdet.
  { replace (process_frame cfg e st) with (@inl Exn Ctl ex, snd (incr_frame_count st)).
    - by constructor.
    - unfold process_frame, mbind, M_bind. simpl. by rewrite Hdet. }
  destruct (draw_frame e vs0) as [ex|ops] eqn:Hdraw.
  { replace (process_frame cfg e st) with (@inl Exn Ctl ex, snd (incr_frame_count st)).
    - by eapply DrawRaises.
    - unfold process_frame, mbind, M_bind. simpl. rewrite Hdet. simpl.
      by rewrite Hdraw. }
  destruct vs0 as [|v vs].
  - replace (process_frame cfg e st)
      with (finish_frame cfg e (snd (incr_frame_count st))).
    + by eapply NoViolation.
    + unfold process_frame, mbind, M_bind. simpl. rewrite Hdet. simpl.
      by rewrite Hdraw.
  - rewrite (process_frame_violations _ _ _ _ _ _ Hdet Hdraw).
    unfold mbind, M_bind.
    rewrite handle_violations_before_alert.
    set (st2 := before_alert cfg e (length (v :: vs)) (snd (incr_frame_count st))).
    destruct (before_alert_cooldown cfg e (length (v :: vs))
                (snd (incr_frame_count st))) as [Hl Hm].
    fold st2 in Hl, Hm. simpl in Hl, Hm.
    destruct (enable_alerts cfg) eqn:He;
      [|rewrite alert_with_cooldown_suppressed by auto;
        eapply Suppressed; eauto].
    destruct (alert_due (last_alert_time st) (min_alert_interval st) (now e)) eqn:Hd;
      [|rewrite alert_with_cooldown_suppressed by (right; by rewrite Hl, Hm);
        eapply Suppressed; eauto].
    destruct (screenshot_path st2) as [ip|] eqn:Hp.
    + rewrite (alert_with_cooldown_dispatch _ _ _ _ ip) by (by rewrite ?Hl, ?Hm).
      eapply Dispatched; eauto.
    + rewrite alert_with_cooldown_unbound by (by rewrite ?Hl, ?Hm).
      eapply Unbound; eauto.
Qed.

(** *** The frames at which the sender is called *)

Lemma new_events_add_trace st evs : new_events st (add_trace evs st) = evs.
Proof. unfold new_events, add_trace. simpl. by rewrite drop_app_length. Qed.

Lemma new_events_before_alert cfg e n st :
  existsb is_network
    (new_events st (before_alert cfg e n (snd (incr_frame_count st)))) = false.
Proof.
  unfold new_events. rewrite before_alert_trace. simpl.
  rewrite drop_app_length. by destruct (save_screenshots cfg).
Qed.

Lemma existsb_finish_events cfg : existsb is_network (finish_events cfg) = false.
Proof. unfold finish_events. by destruct (save_output cfg), (show_preview cfg). Qed.

Lemma new_events_extend st st' evs :
  (∃ evs0, trace st' = trace st ++ evs0) →
  new_events st (add_trace evs st') = new_events st st' ++ evs.
Proof.
  intros [evs0 H]. unfold new_events, add_trace. simpl. rewrite H.
  by rewrite <- app_assoc, !drop_app_length.
Qed.

Lemma before_alert_extends cfg e n st :
  ∃ evs0, trace (before_alert cfg e n (snd (incr_frame_count st))) = trace st ++ evs0.
Proof. rewrite before_alert_trace. simpl. by eexists. Qed.

Lemma new_events_alert cfg e st ip v vs :
  existsb is_network
    (new_events st
       (add_trace (finish_events cfg)
          (record_alert (now e)
             (add_trace (alert_events e (bot_token cfg) (chat_id cfg) ip (v :: vs))
                (before_alert cfg e (length (v :: vs))
                   (snd (incr_frame_count st)))))))
  = true.
Proof.
  destruct (alert_events_head e (bot_token cfg) (chat_id cfg) ip v vs) as [evs Hev].
  unfold new_events. simpl. rewrite before_alert_trace. simpl. rewrite Hev.
  rewrite <- !app_assoc, drop_app_length.
  rewrite !existsb_app. simpl. by rewrite orb_true_r.
Qed.

(** A frame called the sender exactly when it had violations, was drawn,
    alerts were enabled, the alert was due and [screenshot_path] was bound;
    the frame then recorded its clock reading. Every other frame leaves
    [last_alert_time] as it was, and no frame changes [min_alert_interval]. *)
Lemma process_frame_dispatched cfg e st :
  min_alert_interval (snd (process_frame cfg e st)) = min_alert_interval st
  ∧ if dispatched cfg e st
    then alert_due (last_alert_time st) (min_alert_interval st) (now e) = true
         ∧ enable_alerts cfg = true
         ∧ last_alert_time (snd (process_frame cfg e st)) = Some (now e)
    else last_alert_time (snd (process_frame cfg e st)) = last_alert_time st.
Proof.
  unfold dispatched.
  destruct (process_frame_cases cfg e st)
    as [ex Hdet|vs ex Hdet Hdraw|ops Hdet Hdraw|v vs ops st2 Hdet Hdraw -> Hsup
        |v vs ops st2 Hdet Hdraw -> He Hd Hp|v vs ops st2 ip Hdet Hdraw -> He Hd Hp];
    rewrite ?finish_frame_state; simpl.
  - split; [done|]. unfold new_events. simpl. by rewrite drop_all.
  - split; [done|]. unfold new_events. simpl. by rewrite drop_all.
  - split; [done|].
    rewrite (new_events_add_trace st (finish_events cfg)) || idtac.
    replace (existsb is_network _) with false; [done|].
    symmetry. unfold new_events. simpl. rewrite drop_app_length.
    apply existsb_finish_events.
  - destruct (before_alert_cooldown cfg e (length (v :: vs))
                (snd (incr_frame_count st))) as [Hl Hm].
    split; [done|].
    rewrite new_events_extend by apply before_alert_extends.
    rewrite existsb_app, new_events_before_alert, existsb_finish_events. done.
  - destruct (before_alert_cooldown cfg e (length (v :: vs))
                (snd (incr_frame_count st))) as [Hl Hm].
    split; [done|]. by rewrite new_events_before_alert.
  - destruct (before_alert_cooldown cfg e (length (v :: vs))
                (snd (incr_frame_count st))) as [Hl Hm].
    split; [done|]. by rewrite new_events_alert.
Qed.

(** With screenshots and alerts enabled, a frame with violations that was
    drawn calls the sender when the alert is due, and the loop goes on
    unless the key pressed is [q]. *)
Lemma process_frame_alerts cfg e st v vs ops :
  detect_violations cfg (env_results e) = inr (v :: vs) →
  draw_frame e (v :: vs) = inr ops →
  enable_alerts cfg = true →
  save_screenshots cfg = true →
  alert_due (last_alert_time st) (min_alert_interval st) (now e) = true →
  dispatched cfg e st = true
  ∧ fst (process_frame cfg e st)
    = inr (if show_preview cfg && key_is_q e then Break else Continue).
Proof.
  intros Hdet Hdraw He Hs Hdue. unfold dispatched.
  destruct (process_frame_cases cfg e st)
    as [ex Hdet'|vs' ex Hdet' Hdraw'|ops' Hdet' Hdraw'|v' vs' ops' st2 Hdet' Hdraw' -> Hsup
        |v' vs' ops' st2 Hdet' Hdraw' -> He' Hd' Hp
        |v' vs' ops' st2 ip Hdet' Hdraw' -> He' Hd' Hp];
    try congruence.
  - destruct Hsup; congruence.
  - rewrite before_alert_screenshot_path, Hs in Hp. done.
  - rewrite finish_frame_state. simpl. by rewrite new_events_alert.
Qed.


Lemma dispatch_times_cons cfg e frames st :
  dispatch_times cfg (e :: frames) st
  = (if dispatched cfg e st then [now e] else [])
    ++ match process_frame cfg e st with
       | (inr Continue, st') => dispatch_times cfg frames st'
       | _ => []
       end.
Proof. reflexivity. Qed.

(** *** Relations that the whole loop preserves *)

Lemma run_rel_weaken {A} (P : State → Prop) (R1 R2 : State → State → Prop) (m : M A) :
  (∀ st st', R1 st st' → R2 st st') → run_rel P R1 m → run_rel P R2 m.
Proof. intros HR Hm st HP. apply HR, Hm, HP. Qed.

Section FrameRel.
Variable P : State → Prop.
Variable R : State → State → Prop.
Hypothesis R_trans : ∀ a b c, R a b → R b c → R a c.
Hypothesis P_stable : ∀ st st', P st → R st st' → P st'.
Hypothesis silent_R : ∀ st st', silent st st' → R st st'.
Variable cfg : Config.

Ltac quiet :=
  apply (run_rel_weaken P silent R _ silent_R);
  first [ apply silent_ret | apply silent_raise | apply silent_get_state
        | apply silent_incr_frame_count | apply silent_incr_violation_count
        | apply silent_set_screenshot_path | apply silent_save_violation_screenshot
        | apply silent_finish_frame | by apply silent_emit ].

Ltac chain := apply (run_rel_bind P R R_trans P_stable); [|intros ?].

Lemma handle_violations_rel e vs :
  (∀ vs', run_rel P R (alert_with_cooldown cfg e vs')) →
  run_rel P R (handle_violations cfg e vs).
Proof.
  intros Ha. unfold handle_violations. destruct vs as [|v vs]; [quiet|].
  chain; [quiet|]. chain; [quiet|]. chain; [quiet|]. chain; [|apply Ha].
  destruct (save_screenshots cfg); [|quiet]. chain; quiet.
Qed.

Lemma process_frame_rel e :
  (∀ vs, run_rel P R (alert_with_cooldown cfg e vs)) →
  run_rel P R (process_frame cfg e).
Proof.
  intros Ha. unfold process_frame.
  chain; [quiet|]. chain; [destruct (detect_violations _ _); quiet|].
  chain; [destruct (draw_frame _ _); quiet|].
  chain; [by apply handle_violations_rel|quiet].
Qed.

Lemma run_frames_rel frames :
  (∀ e vs, run_rel P R (alert_with_cooldown cfg e vs)) →
  run_rel P R (run_frames cfg frames).
Proof.
  intros Ha. induction frames as [|e frames IH]; simpl; [quiet|].
  chain; [by apply process_frame_rel|]. destruct a; [exact IH|quiet].
Qed.

Lemma process_video_rel frames :
  (∀ st, P st → P (snd (enter_process_video st))) →
  (∀ st, R st (snd (enter_process_video st))) →
  (∀ e vs, run_rel P R (alert_with_cooldown cfg e vs)) →
  run_rel P R (process_video cfg frames).
Proof.
  intros HP HR Ha. unfold process_video.
  chain; [intros st _; apply HR|]. chain; [quiet|].
  chain; [by apply run_frames_rel|]. chain; quiet.
Qed.
End FrameRel.

(** ** The cooldown inside the loop *)

Lemma no_earlier_stable st st' :
  0 ≤ min_alert_interval st → no_earlier st st' → 0 ≤ min_alert_interval st'.
Proof. intros H [-> _]. done. Qed.

Lemma alert_with_cooldown_no_earlier cfg e vs :
  run_rel (λ st, 0 ≤ min_alert_interval st) no_earlier (alert_with_cooldown cfg e vs).
Proof.
  intros st Hm.
  destruct (enable_alerts cfg) eqn:He;
    [|rewrite alert_with_cooldown_suppressed by auto;
      apply silent_no_earlier, silent_refl].
  destruct (alert_due (last_alert_time st) (min_alert_interval st) (now e)) eqn:Hd;
    [|rewrite alert_with_cooldown_suppressed by auto;
      apply silent_no_earlier, silent_refl].
  destruct (screenshot_path st) as [ip|] eqn:Hp.
  - rewrite (alert_with_cooldown_dispatch _ _ _ _ ip) by done.
    split; [done|]. simpl.
    destruct (last_alert_time st) as [l|]; simpl in *; [lia|done].
  - rewrite alert_with_cooldown_unbound by done.
    apply silent_no_earlier, silent_refl.
Qed.

(** C5. When the cooldown is not negative, [last_alert_time] never goes
    back: over one frame, over any run of the loop and over a whole call of
    [process_video] (whether it returns or raises), a time that was recorded
    is still recorded afterwards and is no smaller. *)
Theorem last_alert_time_monotone (cfg : Config) (st : State) :
  0 ≤ min_alert_interval st →
  (∀ e, time_le (last_alert_time st) (last_alert_time (snd (process_frame cfg e st))))
  ∧ (∀ frames,
       time_le (last_alert_time st) (last_alert_time (snd (run_frames cfg frames st))))
  ∧ (∀ frames,
       time_le (last_alert_time st)
         (last_alert_time (snd (process_video cfg frames st)))).
Proof.
  intros Hm. repeat split.
  - intros e.
    apply (process_frame_rel _ _ no_earlier_trans no_earlier_stable
             silent_no_earlier cfg e); [|done].
    intros vs. apply alert_with_cooldown_no_earlier.
  - intros frames.
    apply (run_frames_rel _ _ no_earlier_trans no_earlier_stable
             silent_no_earlier cfg frames); [|done].
    intros e vs. apply alert_with_cooldown_no_earlier.
  - intros frames.
    apply (process_video_rel _ _ no_earlier_trans no_earlier_stable
             silent_no_earlier cfg frames); try done.
    + intros st0. split; [done|]. apply time_le_refl.
    + intros e vs. apply alert_with_cooldown_no_earlier.
Qed.

Lemma silent_new_events st st' :
  silent st st' → Forall (λ ev, is_network ev = false) (new_events st st').
Proof. intros (_ & _ & evs & Ht & Hn). by rewrite (new_events_app _ _ _ Ht). Qed.

Lemma is_network_is_send ev : is_network ev = false → is_send ev = false.
Proof. by destruct ev. Qed.

(** C9. With a cooldown that is not negative, a clock reading strictly
    before the recorded [last_alert_time] fails the test of line 111; lines
    109-118 then do nothing, and the whole frame leaves [last_alert_time] as
    it was and does not reach the network. *)
Theorem backwards_clock_suppresses (cfg : Config) (e : FrameEnv) (st : State) (l : Z) :
  0 ≤ min_alert_interval st →
  last_alert_time st = Some l →
  now e < l →
  alert_due (last_alert_time st) (min_alert_interval st) (now e) = false
  ∧ should_dispatch (min_alert_interval st) (last_alert_time st) (now e)
    = (false, Some l)
  ∧ (∀ vs, alert_with_cooldown cfg e vs st = (inr (), st))
  ∧ last_alert_time (snd (process_frame cfg e st)) = Some l
  ∧ Forall (λ ev, is_network ev = false) (new_events st (snd (process_frame cfg e st))).
Proof.
  intros Hm Hl Hnow.
  assert (Hd : ∀ s, last_alert_time s = Some l ∧ 0 ≤ min_alert_interval s →
                    alert_due (last_alert_time s) (min_alert_interval s) (now e) = false).
  { intros s [-> Hs]. simpl. lia. }
  assert (Hs : silent st (snd (process_frame cfg e st))).
  { apply (process_frame_rel
             (λ s, last_alert_time s = Some l ∧ 0 ≤ min_alert_interval s)
             silent silent_trans); [|done| |done].
    - intros s s' [Hsl Hsm] (Hl' & Hm' & _). by rewrite Hl', Hm'.
    - intros vs s Hs. rewrite alert_with_cooldown_suppressed by auto.
      apply silent_refl. }
  repeat split.
  - by apply Hd.
  - rewrite should_dispatch_eq, (Hd st) by done. by rewrite Hl.
  - intros vs. apply alert_with_cooldown_suppressed. right. by apply Hd.
  - destruct Hs as (-> & _). done.
  - by apply silent_new_events.
Qed.

(** A frame with violations that line 93 can draw, for which the alert is
    due and the variable [screenshot_path] is bound when line 115 reads it:
    the sender is called and returns, line 118 records the time, and the
    frame ends normally. *)
Lemma process_frame_dispatch cfg e st v vs ops ip :
  detect_violations cfg (env_results e) = inr (v :: vs) →
  draw_frame e (v :: vs) = inr ops →
  enable_alerts cfg = true →
  alert_due (last_alert_time st) (min_alert_interval st) (now e) = true →
  (if save_screenshots cfg
   then Some (if imwrite_ok e
              then Some (path_join (screenshot_dir cfg)
                           ("violation_" +:+ shot_stamp e +:+ ".jpg"))
              else None)
   else screenshot_path st) = Some ip →
  ∃ c st' evs1 evs3,
    process_frame cfg e st = (inr c, st')
    ∧ last_alert_time st' = Some (now e)
    ∧ min_alert_interval st' = min_alert_interval st
    ∧ screenshot_path st' = Some ip
    ∧ new_events st st'
      = evs1 ++ alert_events e (bot_token cfg) (chat_id cfg) ip (v :: vs) ++ evs3
    ∧ Forall (λ ev, is_network ev = false) evs1
    ∧ Forall (λ ev, is_network ev = false) evs3.
Proof.
  intros Hdet Hdraw He Hdue Hip.
  rewrite (process_frame_violations _ _ _ _ _ _ Hdet Hdraw).
  unfold mbind, M_bind.
  destruct (handle_violations_run cfg e v vs (snd (incr_frame_count st)))
    as (st2 & -> & (Hl2 & Hm2 & evs1 & Ht2 & Hn1) & Hp2).
  simpl in Hl2, Hm2, Ht2, Hp2. rewrite Hip in Hp2.
  rewrite (alert_with_cooldown_dispatch _ _ _ _ ip) by (by rewrite ?Hl2, ?Hm2).
  match goal with |- context [finish_frame cfg e ?s] =>
    destruct (finish_frame_run cfg e s)
      as (c & st' & -> & (Hl3 & Hm3 & evs3 & Ht3 & Hn3) & Hp3)
  end.
  simpl in Hl3, Hm3, Ht3, Hp3.
  exists c, st', evs1, evs3.
  split; [done|]. split; [done|]. split; [congruence|]. split; [congruence|].
  split; [|done].
  apply new_events_app. rewrite Ht3, Ht2. by rewrite <- !app_assoc.
Qed.

(** C6. A failed send does not undo the cooldown: for a frame with
    violations that reaches the alert (line 93 drew it) and for which the
    alert is due (alerts enabled, [screenshot_path] bound when it is read),
    whatever the bot constructor, [open] and [send_photo] do, raising or
    not, the frame ends normally with [last_alert_time] equal to the time
    read at line 110, and every later reading within the cooldown of it
    fails the test. *)
Theorem failed_send_keeps_cooldown (cfg : Config) (e : FrameEnv) (st : State)
    (v : Detection) (vs : list Detection) (ops : list DrawOp) :
  detect_violations cfg (env_results e) = inr (v :: vs) →
  draw_frame e (v :: vs) = inr ops →
  enable_alerts cfg = true →
  alert_due (last_alert_time st) (min_alert_interval st) (now e) = true →
  save_screenshots cfg = true ∨ is_Some (screenshot_path st) →
  ∃ c st',
    process_frame cfg e st = (inr c, st')
    ∧ last_alert_time st' = Some (now e)
    ∧ ∀ t, t - now e ≤ min_alert_interval st' →
           alert_due (last_alert_time st') (min_alert_interval st') t = false.
Proof.
  intros Hdet Hdraw He Hdue Hbound.
  assert (∃ ip,
    (if save_screenshots cfg
     then Some (if imwrite_ok e
                then Some (path_join (screenshot_dir cfg)
                             ("violation_" +:+ shot_stamp e +:+ ".jpg"))
                else None)
     else screenshot_path st) = Some ip) as [ip Hip].
  { destruct (save_screenshots cfg); [by eexists|].
    destruct Hbound as [|[ip ->]]; [done|by eexists]. }
  destruct (process_frame_dispatch cfg e st v vs ops ip Hdet Hdraw He Hdue Hip)
    as (c & st' & _ & _ & -> & Hl & _).
  exists c, st'. repeat split; [done|].
  intros t Ht. rewrite Hl. simpl. lia.
Qed.

Lemma failed_send_keeps_cooldown_witness :
  let e := helmet_frame true 1000 (Some TelegramError) in
  let st := init helmet_cfg in
  detect_violations helmet_cfg (env_results e) = inr [helmet_violation]
  ∧ draw_frame e [helmet_violation] = inr helmet_ops
  ∧ enable_alerts helmet_cfg = true
  ∧ alert_due (last_alert_time st) (min_alert_interval st) (now e) = true
  ∧ (save_screenshots helmet_cfg = true ∨ is_Some (screenshot_path st))
  ∧ ∃ c st',
      process_frame helmet_cfg e st = (inr c, st')
      ∧ last_alert_time st' = Some (now e)
      ∧ ∀ t, t - now e ≤ min_alert_interval st' →
             alert_due (last_alert_time st') (min_alert_interval st') t = false.
Proof.
  intros e st.
  assert (H1 : detect_violations helmet_cfg (env_results e) = inr [helmet_violation])
    by (vm_compute; reflexivity).
  assert (Hd : draw_frame e [helmet_violation] = inr helmet_ops)
    by (vm_compute; reflexivity).
  assert (H2 : enable_alerts helmet_cfg = true) by reflexivity.
  assert (H3 : alert_due (last_alert_time st) (min_alert_interval st) (now e) = true)
    by reflexivity.
  assert (H4 : save_screenshots helmet_cfg = true ∨ is_Some (screenshot_path st))
    by (left; reflexivity).
  exact (conj H1 (conj Hd (conj H2 (conj H3 (conj H4
           (failed_send_keeps_cooldown helmet_cfg e st helmet_violation []
              helmet_ops H1 Hd H2 H3 H4)))))).
Defined.

Lemma last_alert_time_monotone_witness :
  let st := record_alert 500 (init helmet_cfg) in
  0 ≤ min_alert_interval st
  ∧ (∀ e, time_le (last_alert_time st)
            (last_alert_time (snd (process_frame helmet_cfg e st))))
  ∧ (∀ frames, time_le (last_alert_time st)
                 (last_alert_time (snd (run_frames helmet_cfg frames st))))
  ∧ (∀ frames, time_le (last_alert_time st)
                 (last_alert_time (snd (process_video helmet_cfg frames st)))).
Proof.
  intros st.
  assert (H : 0 ≤ min_alert_interval st) by (vm_compute; discriminate).
  exact (conj H (last_alert_time_monotone helmet_cfg st H)).
Defined.

Lemma backwards_clock_suppresses_witness :
  let st := record_alert 500 (init helmet_cfg) in
  let e := helmet_frame true 100 None in
  0 ≤ min_alert_interval st
  ∧ last_alert_time st = Some 500
  ∧ now e < 500
  ∧ alert_due (last_alert_time st) (min_alert_interval st) (now e) = false
  ∧ should_dispatch (min_alert_interval st) (last_alert_time st) (now e)
    = (false, Some 500)
  ∧ (∀ vs, alert_with_cooldown helmet_cfg e vs st = (inr (), st))
  ∧ last_alert_time (snd (process_frame helmet_cfg e st)) = Some 500
  ∧ Forall (λ ev, is_network ev = false)
      (new_events st (snd (process_frame helmet_cfg e st))).
Proof.
  intros st e.
  assert (H1 : 0 ≤ min_alert_interval st) by (vm_compute; discriminate).
  assert (H2 : last_alert_time st = Some 500) by reflexivity.
  assert (H3 : now e < 500) by reflexivity.
  exact (conj H1 (conj H2 (conj H3
           (backwards_clock_suppresses helmet_cfg e st 500 H1 H2 H3)))).
Defined.

(** ** The scenario of section 8: a cooldown of ten seconds *)



(** ** Two alerts of one run *)

(** Once an alert time is recorded a run of the loop keeps one recorded,
    no earlier when the cooldown is not negative, and leaves the cooldown
    as it is. *)
Lemma run_frames_recorded cfg frames st l :
  last_alert_time st = Some l →
  min_alert_interval (snd (run_frames cfg frames st)) = min_alert_interval st
  ∧ ∃ l', last_alert_time (snd (run_frames cfg frames st)) = Some l'
          ∧ (0 ≤ min_alert_interval st → l ≤ l').
Proof.
  revert st l. induction frames as [|e frames IH]; intros st l Hl; simpl.
  { split; [done|]. exists l. split; [done|lia]. }
  unfold mbind, M_bind.
  destruct (process_frame_dispatched cfg e st) as [Hm Hd].
  assert (∃ l1, last_alert_time (snd (process_frame cfg e st)) = Some l1
                ∧ (0 ≤ min_alert_interval st → l ≤ l1)) as (l1 & Hl1 & Hle).
  { destruct (dispatched cfg e st).
    - destruct Hd as (Hdue & _ & Hrec). exists (now e). split; [done|].
      rewrite Hl in Hdue. simpl in Hdue. apply Z.ltb_lt in Hdue. lia.
    - exists l. split; [congruence|lia]. }
  destruct (process_frame cfg e st) as [[ex|[]] st1]; simpl in *.
  - split; [done|]. by exists l1.
  - destruct (IH st1 l1 Hl1) as (Hm' & l' & Hl' & Hle').
    split; [congruence|]. exists l'. split; [done|]. rewrite Hm in Hle'. lia.
  - split; [done|]. by exists l1.
Qed.

(** C2. Two frames of a run of the loop at which the sender is called,
    with any frames between them and whatever the clock reads at each
    frame: when the second is processed an alert time [l] is recorded and
    strictly more than [min_alert_interval] has passed since [l]; the two
    clock readings do not differ by less than [min_alert_interval]; and when
    the cooldown is not negative, [l] is no earlier than the first frame, so
    the second frame comes strictly more than the cooldown after the
    first. *)
Theorem alerts_never_within_cooldown (cfg : Config) (ei ej : FrameEnv)
    (between : list FrameEnv) (st : State) :
  dispatched cfg ei st = true →
  dispatched cfg ej
    (snd (run_frames cfg between (snd (process_frame cfg ei st)))) = true →
  (∃ l, last_alert_time (snd (run_frames cfg between (snd (process_frame cfg ei st))))
        = Some l
        ∧ min_alert_interval st < now ej - l
        ∧ (0 ≤ min_alert_interval st → now ei ≤ l))
  ∧ ¬ (Z.abs (now ej - now ei) < min_alert_interval st)
  ∧ (0 ≤ min_alert_interval st → min_alert_interval st < now ej - now ei).
Proof.
  intros Hi Hj.
  destruct (process_frame_dispatched cfg ei st) as [Hm1 Hd1].
  rewrite Hi in Hd1. destruct Hd1 as (_ & _ & Hrec).
  destruct (run_frames_recorded cfg between _ _ Hrec) as (Hm2 & l & Hl & Hle).
  rewrite Hm1 in Hm2, Hle.
  match type of Hj with dispatched cfg ej ?s = true =>
    destruct (process_frame_dispatched cfg ej s) as [_ Hd2] end.
  rewrite Hj in Hd2. destruct Hd2 as (Hdue & _ & _).
  rewrite Hl, Hm2 in Hdue. simpl in Hdue. apply Z.ltb_lt in Hdue.
  split; [exists l; by repeat split|]. split; lia.
Qed.

Lemma alerts_never_within_cooldown_witness :
  let ei := helmet_frame true 20000000 None in
  let ej := helmet_frame true 30000001 (Some TelegramError) in
  let between := [helmet_frame true 25000000 None; person_frame;
                  helmet_frame false 30000000 None] in
  let st := init helmet_cfg in
  dispatched helmet_cfg ei st = true
  ∧ dispatched helmet_cfg ej
      (snd (run_frames helmet_cfg between (snd (process_frame helmet_cfg ei st))))
    = true
  ∧ (∃ l, last_alert_time
            (snd (run_frames helmet_cfg between
                    (snd (process_frame helmet_cfg ei st)))) = Some l
          ∧ min_alert_interval st < now ej - l
          ∧ (0 ≤ min_alert_interval st → now ei ≤ l))
  ∧ ¬ (Z.abs (now ej - now ei) < min_alert_interval st)
  ∧ (0 ≤ min_alert_interval st → min_alert_interval st < now ej - now ei).
Proof.
  intros ei ej between st.
  assert (H1 : dispatched helmet_cfg ei st = true) by (vm_compute; reflexivity).
  assert (H2 : dispatched helmet_cfg ej
                 (snd (run_frames helmet_cfg between
                         (snd (process_frame helmet_cfg ei st)))) = true)
    by (vm_compute; reflexivity).
  exact (conj H1 (conj H2
           (alerts_never_within_cooldown helmet_cfg ei ej between st H1 H2))).
Defined.

(** With a negative cooldown the clock may go back between two alerts: the
    first reading of C2 is then all that holds. *)
Example negative_cooldown_alerts :
  let cfg := mkConfig 0.5%float ["no_helmet"%string] true "shots" (-5) true
               "token" "chat" false false in
  dispatch_times cfg [helmet_frame true 3000000 None; helmet_frame true 0 None]
    (init cfg)
  = [3000000; 0].
Proof. vm_compute. reflexivity. Qed.

(** ** A screenshot that could not be written *)

Lemma notification_sent_none evs :
  Forall (λ ev, is_send ev = false) evs → notification_sent evs = false.
Proof.
  unfold notification_sent. induction 1 as [|ev evs Hev _ IH]; simpl; [done|].
  by rewrite Hev, IH.
Qed.

(** C3, as stated, fails: in the scenario of section 8 with alerts enabled
    and no alert sent yet, when [cv2.imwrite] fails the frame is drawn and
    processed to its end and the sender is called, but no photo and no
    message is sent. *)
Lemma screenshot_failure_sends_nothing :
  let e := helmet_frame false 1000 None in
  let r := process_frame helmet_cfg e (init helmet_cfg) in
  imwrite_ok e = false
  ∧ draw_frame e [helmet_violation] = inr helmet_ops
  ∧ fst r = inr Continue
  ∧ notification_sent (trace (snd r)) = false
  ∧ trace (snd r)
    = [Printed (LineFrameViolations 1 1);
       ImWrite "shots/violation_20240101_120000.jpg";
       Printed (LineScreenshotFailed "shots/violation_20240101_120000.jpg");
       NewBot "token";
       Printed (LineScreenshotNotFound None)].
Proof. vm_compute. repeat split. Qed.

(** C3, amended. A failed screenshot is not fatal: for a frame with
    violations that line 93 drew, with screenshots and alerts enabled and
    the alert due, when [cv2.imwrite] fails the frame still ends normally,
    the sender is called with no image path (the bot is built) and the alert
    time is recorded; but the sender sends nothing, and prints "Screenshot
    not found" when the bot could be built. *)
Theorem screenshot_failure_not_fatal (cfg : Config) (e : FrameEnv) (st : State)
    (v : Detection) (vs : list Detection) (ops : list DrawOp) :
  detect_violations cfg (env_results e) = inr (v :: vs) →
  draw_frame e (v :: vs) = inr ops →
  save_screenshots cfg = true →
  imwrite_ok e = false →
  enable_alerts cfg = true →
  alert_due (last_alert_time st) (min_alert_interval st) (now e) = true →
  ∃ c st',
    process_frame cfg e st = (inr c, st')
    ∧ last_alert_time st' = Some (now e)
    ∧ screenshot_path st' = Some None
    ∧ NewBot (bot_token cfg) ∈ new_events st st'
    ∧ notification_sent (new_events st st') = false
    ∧ (bot_ctor e = None → Printed (LineScreenshotNotFound None) ∈ new_events st st').
Proof.
  intros Hdet Hdraw Hs Hw He Hdue.
  destruct (process_frame_dispatch cfg e st v vs ops None Hdet Hdraw He Hdue)
    as (c & st' & evs1 & evs3 & Hrun & Hl & _ & Hp & Hev & Hn1 & Hn3).
  { by rewrite Hs, Hw. }
  destruct (alert_events_head e (bot_token cfg) (chat_id cfg) None v vs)
    as [evs Hhead].
  destruct (alert_events_no_image e (bot_token cfg) (chat_id cfg) None (v :: vs))
    as [Hquiet Hexact]; [done|].
  exists c, st'. repeat split; try done.
  - rewrite Hev, Hhead. set_solver.
  - rewrite Hev. apply notification_sent_none.
    rewrite !Forall_app. repeat split; [|done|];
      eapply Forall_impl; eauto using is_network_is_send.
  - intros Hb. rewrite Hev, Hexact by done. set_solver.
Qed.

Lemma screenshot_failure_not_fatal_witness :
  let e := helmet_frame false 1000 None in
  let st := init helmet_cfg in
  detect_violations helmet_cfg (env_results e) = inr [helmet_violation]
  ∧ draw_frame e [helmet_violation] = inr helmet_ops
  ∧ save_screenshots helmet_cfg = true
  ∧ imwrite_ok e = false
  ∧ enable_alerts helmet_cfg = true
  ∧ alert_due (last_alert_time st) (min_alert_interval st) (now e) = true
  ∧ ∃ c st',
      process_frame helmet_cfg e st = (inr c, st')
      ∧ last_alert_time st' = Some (now e)
      ∧ screenshot_path st' = Some None
      ∧ NewBot (bot_token helmet_cfg) ∈ new_events st st'
      ∧ notification_sent (new_events st st') = false
      ∧ (bot_ctor e = None →
         Printed (LineScreenshotNotFound None) ∈ new_events st st').
Proof.
  intros e st.
  assert (H1 : detect_violations helmet_cfg (env_results e) = inr [helmet_violation])
    by (vm_compute; reflexivity).
  assert (Hd : draw_frame e [helmet_violation] = inr helmet_ops)
    by (vm_compute; reflexivity).
  assert (H2 : save_screenshots helmet_cfg = true) by reflexivity.
  assert (H3 : imwrite_ok e = false) by reflexivity.
  assert (H4 : enable_alerts helmet_cfg = true) by reflexivity.
  assert (H5 : alert_due (last_alert_time st) (min_alert_interval st) (now e) = true)
    by reflexivity.
  exact (conj H1 (conj Hd (conj H2 (conj H3 (conj H4 (conj H5
           (screenshot_failure_not_fatal helmet_cfg e st helmet_violation []
              helmet_ops H1 Hd H2 H3 H4 H5))))))).
Defined.

(** ** Alerts without screenshots *)

Lemma process_video_unfold cfg frames st :
  process_video cfg frames st
  = (run_frames cfg frames ≫= λ _,
     get_state ≫= λ s, emit (Printed (LineComplete (frame_count s) (violation_count s))))
      (add_trace [Printed LineProcessing] (snd (enter_process_video st))).
Proof. reflexivity. Qed.

(** With [save_screenshots] false no frame binds [screenshot_path]. *)
Lemma process_frame_stays_unbound cfg e st :
  save_screenshots cfg = false →
  screenshot_path st = None →
  screenshot_path (snd (process_frame cfg e st)) = None.
Proof.
  intros Hs Hp.
  assert (Hfin : ∀ s, screenshot_path s = None →
            screenshot_path (snd (finish_frame cfg e s)) = None).
  { intros s Hsp. destruct (finish_frame_run cfg e s) as (c & s' & -> & _ & Hq).
    simpl. congruence. }
  destruct (detect_violations cfg (env_results e)) as [ex|vs0] eqn:Hdet.
  { unfold process_frame, mbind, M_bind. simpl. by rewrite Hdet. }
  destruct (draw_frame e vs0) as [ex|ops] eqn:Hdraw.
  { unfold process_frame, mbind, M_bind. simpl. rewrite Hdet. simpl.
    by rewrite Hdraw. }
  destruct vs0 as [|v vs].
  - unfold process_frame, mbind, M_bind. simpl. rewrite Hdet. simpl.
    rewrite Hdraw. simpl. by apply Hfin.
  - rewrite (process_frame_violations _ _ _ _ _ _ Hdet Hdraw).
    unfold mbind, M_bind.
    destruct (handle_violations_run cfg e v vs (snd (incr_frame_count st)))
      as (st2 & -> & _ & Hp2).
    rewrite Hs in Hp2. simpl in Hp2. rewrite Hp in Hp2.
    destruct (enable_alerts cfg) eqn:He;
      [|rewrite alert_with_cooldown_suppressed by auto; by apply Hfin].
    destruct (alert_due (last_alert_time st2) (min_alert_interval st2) (now e)) eqn:Hd;
      [|rewrite alert_with_cooldown_suppressed by auto; by apply Hfin].
    by rewrite alert_with_cooldown_unbound.
Qed.

Lemma run_frames_stays_unbound cfg frames st :
  save_screenshots cfg = false →
  screenshot_path st = None →
  screenshot_path (snd (run_frames cfg frames st)) = None.
Proof.
  intros Hs. revert st. induction frames as [|e frames IH]; intros st Hp; [done|].
  simpl. unfold mbind, M_bind.
  pose proof (process_frame_stays_unbound cfg e st Hs Hp) as Hp'.
  destruct (process_frame cfg e st) as [[ex|[]] st1]; simpl in *; auto.
Qed.

(** C8. With [save_screenshots] false the variable [screenshot_path] is
    never assigned. A frame with violations that line 93 drew, for which
    alerts are enabled and the alert is due, then raises [UnboundLocalError]
    at line 115, before the sender is called: nothing reaches the network,
    [last_alert_time] is not updated, and the loop and [process_video] end
    with that exception, the remaining frames unprocessed. *)
Theorem unbound_screenshot_path_raises (cfg : Config) (e : FrameEnv)
    (rest : list FrameEnv) (st : State) (v : Detection) (vs : list Detection)
    (ops : list DrawOp) :
  detect_violations cfg (env_results e) = inr (v :: vs) →
  draw_frame e (v :: vs) = inr ops →
  save_screenshots cfg = false →
  enable_alerts cfg = true →
  alert_due (last_alert_time st) (min_alert_interval st) (now e) = true →
  (screenshot_path st = None →
   ∃ st',
     process_frame cfg e st = (inl (UnboundLocalError "screenshot_path"), st')
     ∧ run_frames cfg (e :: rest) st
       = (inl (UnboundLocalError "screenshot_path"), st')
     ∧ last_alert_time st' = last_alert_time st
     ∧ Forall (λ ev, is_network ev = false) (new_events st st'))
  ∧ ∃ st',
      process_video cfg (e :: rest) st
      = (inl (UnboundLocalError "screenshot_path"), st')
      ∧ last_alert_time st' = last_alert_time st
      ∧ Forall (λ ev, is_network ev = false) (new_events st st').
Proof.
  intros Hdet Hdraw Hs He Hdue.
  assert (Hframe : ∀ s, silent st s → screenshot_path s = None →
            ∃ st', process_frame cfg e s
                   = (inl (UnboundLocalError "screenshot_path"), st')
                   ∧ run_frames cfg (e :: rest) s
                     = (inl (UnboundLocalError "screenshot_path"), st')
                   ∧ silent st st').
  { intros s Hss Hp.
    assert (∃ st', process_frame cfg e s
                   = (inl (UnboundLocalError "screenshot_path"), st')
                   ∧ silent st st') as (st' & Hrun & Hsil).
    { rewrite (process_frame_violations _ _ _ _ _ _ Hdet Hdraw).
      unfold mbind, M_bind.
      destruct (handle_violations_run cfg e v vs (snd (incr_frame_count s)))
        as (st2 & -> & Hs2 & Hp2).
      rewrite Hs in Hp2. simpl in Hp2. rewrite Hp in Hp2.
      assert (Hst2 : silent st st2).
      { eapply silent_trans; [exact Hss|].
        eapply silent_trans; [|exact Hs2].
        apply (silent_incr_frame_count (λ _, True) s I). }
      destruct Hst2 as (Hl2 & Hm2 & Ht2).
      rewrite alert_with_cooldown_unbound by (by rewrite ?Hl2, ?Hm2).
      eexists. split; [reflexivity|]. by repeat split. }
    exists st'. repeat split; try done; try apply Hsil.
    simpl. unfold mbind, M_bind. by rewrite Hrun. }
  split.
  - intros Hp.
    destruct (Hframe st (silent_refl st) Hp) as (st' & Hrun & Hloop & Hsil).
    exists st'. repeat split; try done; [apply Hsil|by apply silent_new_events].
  - destruct (Hframe (add_trace [Printed LineProcessing] (snd (enter_process_video st))))
      as (st' & _ & Hloop & Hsil); [|done|].
    { repeat split. exists [Printed LineProcessing]. split; [done|by repeat constructor]. }
    exists st'. repeat split; [|apply Hsil|by apply silent_new_events].
    rewrite process_video_unfold. unfold mbind at 1, M_bind at 1.
    by rewrite Hloop.
Qed.

Lemma unbound_screenshot_path_raises_witness :
  let e := helmet_frame true 1000 None in
  let st := init no_shots_cfg in
  detect_violations no_shots_cfg (env_results e) = inr [helmet_violation]
  ∧ draw_frame e [helmet_violation] = inr helmet_ops
  ∧ save_screenshots no_shots_cfg = false
  ∧ enable_alerts no_shots_cfg = true
  ∧ alert_due (last_alert_time st) (min_alert_interval st) (now e) = true
  ∧ (screenshot_path st = None →
     ∃ st',
       process_frame no_shots_cfg e st
       = (inl (UnboundLocalError "screenshot_path"), st')
       ∧ run_frames no_shots_cfg [e; e] st
         = (inl (UnboundLocalError "screenshot_path"), st')
       ∧ last_alert_time st' = last_alert_time st
       ∧ Forall (λ ev, is_network ev = false) (new_events st st'))
  ∧ ∃ st',
      process_video no_shots_cfg [e; e] st
      = (inl (UnboundLocalError "screenshot_path"), st')
      ∧ last_alert_time st' = last_alert_time st
      ∧ Forall (λ ev, is_network ev = false) (new_events st st').
Proof.
  intros e st.
  assert (H1 : detect_violations no_shots_cfg (env_results e) = inr [helmet_violation])
    by (vm_compute; reflexivity).
  assert (Hd : draw_frame e [helmet_violation] = inr helmet_ops)
    by (vm_compute; reflexivity).
  assert (H2 : save_screenshots no_shots_cfg = false) by reflexivity.
  assert (H3 : enable_alerts no_shots_cfg = true) by reflexivity.
  assert (H4 : alert_due (last_alert_time st) (min_alert_interval st) (now e) = true)
    by reflexivity.
  destruct (unbound_screenshot_path_raises no_shots_cfg e [e] st helmet_violation []
              helmet_ops H1 Hd H2 H3 H4) as [Ha Hb].
  exact (conj H1 (conj Hd (conj H2 (conj H3 (conj H4 (conj Ha Hb)))))).
Defined.

(** ** The scenario of section 8 inside the loop *)

Lemma finish_frame_continue cfg e st :
  key_is_q e = false → fst (finish_frame cfg e st) = inr Continue.
Proof.
  intros Hk. unfold finish_frame. rewrite Hk.
  by destruct (save_output cfg), (show_preview cfg).
Qed.

(** The four calls of section 8 inside [process_video], with [t0 = 0]: two
    photos are sent, for the first and the fourth frame, and the time of the
    fourth is the one recorded at the end. *)
Example cooldown_in_process_video :
  let frames := [helmet_frame true 0 None;
                 helmet_frame true (timedelta_seconds 9) None;
                 helmet_frame true (timedelta_seconds 10) None;
                 helmet_frame true 10001000 None] in
  let r := process_video helmet_cfg frames (init helmet_cfg) in
  fst r = inr ()
  ∧ last_alert_time (snd r) = Some 10001000
  ∧ List.filter is_network (trace (snd r))
    = [NewBot "token";
       SendPhoto "chat" "shots/violation_20240101_120000.jpg"
         (alert_caption [helmet_violation]);
       NewBot "token";
       SendPhoto "chat" "shots/violation_20240101_120000.jpg"
         (alert_caption [helmet_violation])].
Proof. vm_compute. repeat split. Qed.

(** * Further properties of the code *)

#[local] Set Warnings "-clear-no-such-hyp".

(** ** The filter: errors and edge cases *)

Lemma box_detections_raises nm bs ex :
  box_detections nm bs = inl ex →
  ∃ box, box ∈ bs ∧ nm !! cls box = None ∧ ex = KeyError (cls box).
Proof.
  induction bs as [|box bs IH]; simpl; [done|].
  destruct (nm !! cls box) as [c|] eqn:Hc.
  - destruct (box_detections nm bs) as [ex'|ds]; [|done].
    intros [= <-]. destruct IH as (b & Hb & Hn & He); [done|].
    exists b. split; [by right|done].
  - intros [= <-]. exists box. split; [by left|done].
Qed.

Lemma box_detections_unknown nm bs :
  Exists (λ box, nm !! cls box = None) bs → ∃ ex, box_detections nm bs = inl ex.
Proof.
  induction 1 as [box bs Hn|box bs _ [ex IH]]; simpl.
  - rewrite Hn. by eexists.
  - destruct (nm !! cls box); [|by eexists]. rewrite IH. by eexists.
Qed.

Lemma detections_raises results ex :
  detections results = inl ex →
  ∃ r box, r ∈ results ∧ box ∈ boxes r ∧ names r !! cls box = None
           ∧ ex = KeyError (cls box).
Proof.
  induction results as [|r results IH]; simpl; [done|].
  destruct (box_detections (names r) (boxes r)) as [ex'|ds] eqn:Hb.
  - intros [= <-]. destruct (box_detections_raises _ _ _ Hb) as (box & ? & ? & ?).
    exists r, box. split; [by left|done].
  - destruct (detections results) as [ex'|ds']; [|done].
    intros [= <-]. destruct IH as (r' & box & ? & ?); [done|].
    exists r', box. split; [by right|done].
Qed.

Lemma detections_unknown results :
  Exists (λ r, Exists (λ box, names r !! cls box = None) (boxes r)) results →
  ∃ ex, detections results = inl ex.
Proof.
  induction 1 as [r results Hn|r results _ [ex IH]]; simpl.
  - destruct (box_detections_unknown _ _ Hn) as [ex ->]. by eexists.
  - destruct (box_detections (names r) (boxes r)); [by eexists|].
    rewrite IH. by eexists.
Qed.

(** X1. [detect_violations] raises exactly when some box has a class id that
    its result's [names] does not hold, whatever the threshold and the
    violation classes (a box that would not qualify raises all the same); the
    exception is the [KeyError] of such a box. *)
Theorem detect_violations_raises_iff (cfg : Config) (results : list Result) :
  ((∃ ex, detect_violations cfg results = inl ex)
   ↔ Exists (λ r, Exists (λ box, names r !! cls box = None) (boxes r)) results)
  ∧ ∀ ex, detect_violations cfg results = inl ex →
          ∃ r box, r ∈ results ∧ box ∈ boxes r ∧ names r !! cls box = None
                   ∧ ex = KeyError (cls box).
Proof.
  assert (Hd : ∀ ex, detect_violations cfg results = inl ex
                     ↔ detections results = inl ex).
  { intros ex. rewrite detect_violations_filter.
    destruct (detections results); simpl; split; congruence. }
  split; [split|].
  - intros [ex Hex]. apply Hd in Hex.
    destruct (detections_raises _ _ Hex) as (r & box & Hr & Hb & Hn & _).
    apply Exists_exists. exists r. split; [done|].
    apply Exists_exists. by exists box.
  - intros H. destruct (detections_unknown _ H) as [ex Hex].
    exists ex. by apply Hd.
  - intros ex Hex. apply Hd in Hex. by apply detections_raises.
Qed.

Lemma SFeqb_refl_false s : SFeqb s s = false → s = S754_nan.
Proof.
  unfold SFeqb, SFcompare.
  destruct s as [[]|[]| |[] m e]; try done;
    rewrite Z.compare_refl, Pos.compare_refl; done.
Qed.

Lemma is_nan_Prim2SF x : PrimFloat.is_nan x = true → Prim2SF x = S754_nan.
Proof.
  unfold PrimFloat.is_nan. rewrite FloatAxioms.eqb_spec. intros H.
  apply SFeqb_refl_false. by destruct (SFeqb (Prim2SF x) (Prim2SF x)).
Qed.

(** A NaN is neither above nor below anything. *)
Lemma float_gt_nan x y :
  PrimFloat.is_nan x = true → float_gt x y = false ∧ float_gt y x = false.
Proof.
  intros H. unfold float_gt. rewrite !ltb_spec, (is_nan_Prim2SF x H).
  split; [|done]. unfold SFltb, SFcompare. by destruct (Prim2SF y) as [[]|[]| |[]].
Qed.

Lemma filter_none {A} (P : A → Prop) `{!∀ x, Decision (P x)} (l : list A) :
  (∀ x, ¬ P x) → filter P l = [].
Proof.
  intros Hn. induction l as [|x l IH]; [done|]. by rewrite filter_cons_False.
Qed.

(** X2. With no violation class configured, or with a threshold that is a
    NaN, [detect_violations] reports nothing: it returns the empty list
    whenever it returns. *)
Theorem detect_violations_reports_nothing (cfg : Config) (results : list Result) :
  violation_classes cfg = [] ∨ PrimFloat.is_nan (confidence_threshold cfg) = true →
  detect_violations cfg results = map_inr (λ _, []) (detections results).
Proof.
  intros H. rewrite detect_violations_filter.
  destruct (detections results) as [ex|ds]; simpl; [done|]. f_equal.
  apply filter_none. intros d [Hc Hl]. destruct H as [H|H].
  - rewrite H in Hc. by apply not_elem_of_nil in Hc.
  - destruct (float_gt_nan _ (d_confidence d) H) as [_ Hf].
    unfold float_gt in Hf. congruence.
Qed.

Lemma detect_violations_reports_nothing_witness :
  let cfg := mkConfig nan ["no_helmet"%string] true "shots" 10 true "token" "chat"
               false false in
  (violation_classes cfg = [] ∨ PrimFloat.is_nan (confidence_threshold cfg) = true)
  ∧ detect_violations cfg helmet_results
    = map_inr (λ _, []) (detections helmet_results).
Proof.
  intros cfg.
  assert (H : violation_classes cfg = []
              ∨ PrimFloat.is_nan (confidence_threshold cfg) = true)
    by (right; reflexivity).
  exact (conj H (detect_violations_reports_nothing cfg helmet_results H)).
Defined.

Lemma box_detections_elem nm bs ds d :
  box_detections nm bs = inr ds → d ∈ ds →
  ∃ box, box ∈ bs ∧ nm !! cls box = Some (d_class d)
         ∧ d_confidence d = conf box ∧ d_bbox d = xyxy box.
Proof.
  revert ds. induction bs as [|box bs IH]; intros ds; simpl.
  { intros [= <-] Hd. by apply not_elem_of_nil in Hd. }
  destruct (nm !! cls box) as [c|] eqn:Hc; [|done].
  destruct (box_detections nm bs) as [ex|ds']; [done|].
  intros [= <-] [->|Hd]%elem_of_cons.
  - exists box. split; [by left|done].
  - destruct (IH ds' eq_refl Hd) as (b & ? & ?). exists b. split; [by right|done].
Qed.

Lemma detections_elem results ds d :
  detections results = inr ds → d ∈ ds →
  ∃ r box, r ∈ results ∧ box ∈ boxes r ∧ names r !! cls box = Some (d_class d)
           ∧ d_confidence d = conf box ∧ d_bbox d = xyxy box.
Proof.
  revert ds. induction results as [|r results IH]; intros ds; simpl.
  { intros [= <-] Hd. by apply not_elem_of_nil in Hd. }
  destruct (box_detections (names r) (boxes r)) as [ex|ds1] eqn:Hb; [done|].
  destruct (detections results) as [ex|ds2]; [done|].
  intros [= <-] [Hd|Hd]%elem_of_app.
  - destruct (box_detections_elem _ _ _ _ Hb Hd) as (box & ? & ?).
    exists r, box. split; [by left|done].
  - destruct (IH ds2 eq_refl Hd) as (r' & box & ? & ?).
    exists r', box. split; [by right|done].
Qed.

(** X3. Every violation that [detect_violations] reports comes from a box of
    the input: it carries that box's confidence and coordinates unchanged and
    the name of its class id; its class is a violation class and its
    confidence is above the threshold, hence not a NaN. *)
Theorem detect_violations_sound (cfg : Config) (results : list Result)
    (vs : list Detection) (d : Detection) :
  detect_violations cfg results = inr vs →
  d ∈ vs →
  (∃ r box, r ∈ results ∧ box ∈ boxes r ∧ names r !! cls box = Some (d_class d)
            ∧ d_confidence d = conf box ∧ d_bbox d = xyxy box)
  ∧ d_class d ∈ violation_classes cfg
  ∧ float_gt (d_confidence d) (confidence_threshold cfg) = true
  ∧ PrimFloat.is_nan (d_confidence d) = false.
Proof.
  rewrite detect_violations_filter.
  destruct (detections results) as [ex|ds] eqn:Hds; simpl; [done|].
  intros [= <-] [[Hc Hl] Hd]%list_elem_of_filter.
  split; [by eapply detections_elem|]. split; [done|]. split; [done|].
  destruct (PrimFloat.is_nan (d_confidence d)) eqn:Hn; [|done].
  destruct (float_gt_nan _ (confidence_threshold cfg) Hn) as [Hf _].
  unfold float_gt in Hf. congruence.
Qed.

Lemma detect_violations_sound_witness :
  detect_violations helmet_cfg helmet_results = inr [helmet_violation]
  ∧ helmet_violation ∈ [helmet_violation]
  ∧ (∃ r box, r ∈ helmet_results ∧ box ∈ boxes r
              ∧ names r !! cls box = Some (d_class helmet_violation)
              ∧ d_confidence helmet_violation = conf box
              ∧ d_bbox helmet_violation = xyxy box)
  ∧ d_class helmet_violation ∈ violation_classes helmet_cfg
  ∧ float_gt (d_confidence helmet_violation) (confidence_threshold helmet_cfg) = true
  ∧ PrimFloat.is_nan (d_confidence helmet_violation) = false.
Proof.
  assert (H1 : detect_violations helmet_cfg helmet_results = inr [helmet_violation])
    by (vm_compute; reflexivity).
  assert (H2 : helmet_violation ∈ [helmet_violation]) by (by left).
  exact (conj H1 (conj H2
           (detect_violations_sound helmet_cfg helmet_results [helmet_violation]
              helmet_violation H1 H2))).
Defined.

Lemma detections_app rs1 rs2 :
  detections (rs1 ++ rs2)
  = match detections rs1 with
    | inl ex => inl ex
    | inr ds1 => map_inr (app ds1) (detections rs2)
    end.
Proof.
  induction rs1 as [|r rs1 IH]; simpl.
  - by destruct (detections rs2).
  - destruct (box_detections (names r) (boxes r)) as [ex|ds]; [done|].
    rewrite IH. destruct (detections rs1) as [ex|ds1]; [done|].
    destruct (detections rs2) as [ex|ds2]; simpl; [done|]. by rewrite app_assoc.
Qed.

(** X4. Scanning a list of results made of two parts gives the violations of
    the first part followed by those of the second; an exception of the first
    part comes first. *)
Theorem detect_violations_app (cfg : Config) (rs1 rs2 : list Result) :
  detect_violations cfg (rs1 ++ rs2)
  = match detect_violations cfg rs1 with
    | inl ex => inl ex
    | inr vs1 => map_inr (app vs1) (detect_violations cfg rs2)
    end.
Proof.
  rewrite !detect_violations_filter, detections_app.
  destruct (detections rs1) as [ex|ds1]; simpl; [done|].
  destruct (detections rs2) as [ex|ds2]; simpl; [done|]. by rewrite filter_app.
Qed.

(** ** The alert sender: what one call does *)

Ltac run_alert :=
  unfold alert_events, send_violation_alert, try_except, call, mbind, M_bind,
    emit, raise, alert_handler; simpl.

Ltac solve_mem :=
  repeat (rewrite ?elem_of_cons, ?elem_of_nil in * ); naive_solver.

Ltac finish_alert :=
  split; [|split]; [naive_solver|solve_mem|intros c p cap H; solve_mem].

(** X5. Whatever its arguments and whatever the bot, the file system and the
    network do, one call of [send_violation_alert] returns without raising,
    changes nothing but the trace, prints exactly one line and calls
    [send_photo] at most once. *)
Theorem send_violation_alert_one_line (e : FrameEnv) (token chat : string)
    (image_path : option string) (violations : list Detection) (st : State) :
  send_violation_alert e token chat image_path violations st
  = (inr (), add_trace (alert_events e token chat image_path violations) st)
  ∧ length (List.filter is_printed
              (alert_events e token chat image_path violations)) = 1%nat
  ∧ (length (List.filter is_send
               (alert_events e token chat image_path violations)) ≤ 1)%nat.
Proof.
  split; [apply send_violation_alert_run|].
  destruct violations as [|v vs]; [by split; [|simpl; lia]|].
  run_alert.
  destruct (bot_ctor e) as [ex|]; simpl.
  { destruct ex; simpl; split; (reflexivity || lia). }
  destruct (image_available e image_path); simpl; [|split; (reflexivity || lia)].
  destruct (open_photo e) as [ex|]; simpl.
  { destruct ex; simpl; split; (reflexivity || lia). }
  destruct (send_photo e) as [ex|]; simpl; [destruct ex; simpl|];
    split; (reflexivity || lia).
Qed.

Lemma image_available_path e ip :
  image_available e ip = true → ∃ p, ip = Some p ∧ p ≠ ""%string ∧ path_exists e p = true.
Proof.
  destruct ip as [p|]; simpl; [|done].
  intros [Hn He]%andb_true_iff. exists p. split; [done|]. split; [|done].
  intros ->. done.
Qed.

(** X6. [send_violation_alert] calls [send_photo] exactly when there are
    violations, the bot could be built, the image path is a non-empty path
    that exists and the file could be opened; the photo is then that file,
    sent to the given chat with the number of violations in its caption. It
    prints "Alert sent" exactly when, besides, [send_photo] did not raise. *)
Theorem send_violation_alert_sends_iff (e : FrameEnv) (token chat : string)
    (image_path : option string) (violations : list Detection) :
  let evs := alert_events e token chat image_path violations in
  (notification_sent evs = true
   ↔ violations ≠ [] ∧ bot_ctor e = None ∧ image_available e image_path = true
     ∧ open_photo e = None)
  ∧ (Printed LineAlertSent ∈ evs
     ↔ violations ≠ [] ∧ bot_ctor e = None ∧ image_available e image_path = true
       ∧ open_photo e = None ∧ send_photo e = None)
  ∧ ∀ c p cap, SendPhoto c p cap ∈ evs →
      c = chat ∧ image_path = Some p ∧ p ≠ ""%string ∧ path_exists e p = true
      ∧ violation_total cap = length violations
      ∧ violation_summary cap = list_to_set (d_class <$> violations).
Proof.
  intros evs. subst evs. unfold notification_sent.
  destruct violations as [|v vs].
  { unfold alert_events. simpl. finish_alert. }
  run_alert.
  destruct (bot_ctor e) as [ex|]; simpl; [destruct ex; simpl; finish_alert|].
  destruct (image_available e image_path) eqn:Hi; simpl; [|finish_alert].
  destruct (image_available_path _ _ Hi) as (p0 & -> & Hp0 & Hex). simpl.
  destruct (open_photo e) as [ex|]; simpl; [destruct ex; simpl; finish_alert|].
  destruct (send_photo e) as [ex|]; simpl; [destruct ex; simpl|]; finish_alert.
Qed.

(** ** The screenshot file *)

Lemma list_ascii_of_string_app s t :
  String.list_ascii_of_string (s +:+ t)
  = String.list_ascii_of_string s ++ String.list_ascii_of_string t.
Proof.
  induction s as [|a s IH]; [done|].
  change (String a s +:+ t) with (String a (s +:+ t)). simpl. by rewrite IH.
Qed.

Lemma string_app_inv_tail s1 s2 t : s1 +:+ t = s2 +:+ t → s1 = s2.
Proof.
  intros H. apply (f_equal String.list_ascii_of_string) in H.
  rewrite !list_ascii_of_string_app in H. apply app_inv_tail in H.
  rewrite <- (String.string_of_list_ascii_of_string s1),
    <- (String.string_of_list_ascii_of_string s2). by rewrite H.
Qed.

(** X7. The name of the screenshot file is made of the directory and the
    time stamp alone, to the second: two screenshots that are written into
    the same directory get the same path, the later one replacing the
    earlier, exactly when they are taken within the same second, whatever the
    violations. *)
Theorem screenshot_paths_collide_iff (e1 e2 : FrameEnv) (vs1 vs2 : list Detection)
    (dir : string) (st1 st2 : State) :
  imwrite_ok e1 = true →
  imwrite_ok e2 = true →
  (fst (save_violation_screenshot e1 vs1 dir st1)
   = fst (save_violation_screenshot e2 vs2 dir st2)
   ↔ shot_stamp e1 = shot_stamp e2).
Proof.
  intros H1 H2. unfold save_violation_screenshot, mbind, M_bind, emit. simpl.
  rewrite H1, H2. simpl. split; [|by intros ->].
  intros [= H]. unfold path_join in H.
  do 2 apply String.app_inj in H. by apply string_app_inv_tail in H.
Qed.

Lemma screenshot_paths_collide_iff_witness :
  let e1 := helmet_frame true 0 None in
  let e2 := helmet_frame true 900000 (Some TelegramError) in
  imwrite_ok e1 = true
  ∧ imwrite_ok e2 = true
  ∧ (fst (save_violation_screenshot e1 [helmet_violation] "shots" (init helmet_cfg))
     = fst (save_violation_screenshot e2 [] "shots" (init no_shots_cfg))
     ↔ shot_stamp e1 = shot_stamp e2).
Proof.
  intros e1 e2.
  exact (conj eq_refl (conj eq_refl
           (screenshot_paths_collide_iff e1 e2 [helmet_violation] [] "shots"
              (init helmet_cfg) (init no_shots_cfg) eq_refl eq_refl))).
Defined.

(** ** The connection test *)

(** X8. [test_telegram_connection] never raises. It returns [True] exactly
    when neither building the bot nor sending the message raised; it tries to
    send the message, to the given chat, exactly when the bot could be built;
    and it always ends by printing one line, the only line it prints. *)
Theorem test_telegram_connection_result (env : ConnEnv) (token chat : string) :
  let r := test_telegram_connection env token chat in
  (fst r = true ↔ conn_bot_ctor env = None ∧ conn_send_message env = None)
  ∧ (ConnSendMessage chat active_text ∈ snd r ↔ conn_bot_ctor env = None)
  ∧ (∀ c text, ConnSendMessage c text ∈ snd r → c = chat ∧ text = active_text)
  ∧ ∃ evs line,
      snd r = ConnNewBot token :: evs ++ [ConnPrinted line]
      ∧ (∀ l, ConnPrinted l ∉ evs)
      ∧ (line = LineConnectionOk ↔ fst r = true).
Proof.
  intros r. subst r. unfold test_telegram_connection, conn_handler.
  destruct (conn_bot_ctor env) as [ex|].
  { split; [split; [by destruct ex|by intros [? _]]|].
    split; [split; [destruct ex; set_solver|done]|].
    split; [intros c text; destruct ex; set_solver|].
    exists []. destruct ex; eexists; (split; [reflexivity|]);
      (split; [set_solver|]); done. }
  destruct (conn_send_message env) as [ex|].
  { split; [split; [by destruct ex|by intros [_ ?]]|].
    split; [split; [done|destruct ex; set_solver]|].
    split; [intros c text; destruct ex; set_solver|].
    exists [ConnSendMessage chat active_text].
    destruct ex; eexists; (split; [reflexivity|]); (split; [set_solver|]); done. }
  simpl. split; [done|]. split; [split; [done|set_solver]|].
  split; [intros c text; set_solver|].
  exists [ConnSendMessage chat active_text], LineConnectionOk.
  split; [done|]. split; [set_solver|done].
Qed.

(** ** Drawing the boxes *)

Lemma int_of_float_finite f : (∃ z, int_of_float f = inr z) ↔ finite f.
Proof.
  unfold int_of_float, finite.
  destruct (Prim2SF f) as [s|s| |s m e]; split; try done; try (by eexists);
    by intros [z ?].
Qed.

Lemma unpack_ints_4 xs :
  (∃ zs, unpack_ints 4 xs = inr zs)
  ↔ ∃ a b c d, xs = [a; b; c; d] ∧ finite a ∧ finite b ∧ finite c ∧ finite d.
Proof.
  split.
  - intros [zs H].
    destruct xs as [|a [|b [|c [|d [|x xs]]]]]; simpl in H;
      repeat match type of H with
             | context [int_of_float ?x] =>
                 let E := fresh "E" in
                 destruct (int_of_float x) eqn:E; [done|]
             end; try done.
    exists a, b, c, d. split; [done|].
    repeat split; apply int_of_float_finite; by eexists.
  - intros (a & b & c & d & -> & [za Ha]%int_of_float_finite
            & [zb Hb]%int_of_float_finite & [zc Hc]%int_of_float_finite
            & [zd Hd]%int_of_float_finite).
    simpl. rewrite Ha, Hb, Hc, Hd. by eexists.
Qed.

Lemma unpack_ints_length n xs zs : unpack_ints n xs = inr zs → length zs = n.
Proof.
  revert xs zs. induction n as [|n IH]; intros [|x xs] zs; simpl; try done.
  - by intros [= <-].
  - by destruct (int_of_float x).
  - destruct (int_of_float x) as [|z]; [done|].
    destruct (unpack_ints n xs) as [|zs'] eqn:E; [done|].
    intros [= <-]. simpl. f_equal. by eapply IH.
Qed.

(** One box: if it is drawn it is drawable, with three calls that OpenCV
    accepted, and the colour of its outline says whether its class is a
    violation class; a drawable box is drawn when OpenCV accepts the calls. *)
Lemma box_ops_drawable env nm vcs box ops :
  box_ops env nm vcs box = inr ops → drawable nm box.
Proof.
  unfold box_ops, drawable. intros H.
  destruct (unpack_ints 4 (xyxy box)) as [|zs] eqn:Hu; [done|].
  split; [|apply unpack_ints_4; by eexists].
  pose proof (unpack_ints_length _ _ _ Hu) as Hl.
  destruct zs as [|x1 [|y1 [|x2 [|y2 [|]]]]]; try done.
  by destruct (nm !! cls box).
Qed.

Lemma box_ops_accepted env nm vcs box :
  (∀ op, draw_accepts env op = true) →
  drawable nm box → ∃ ops, box_ops env nm vcs box = inr ops.
Proof.
  unfold box_ops, drawable.
  intros Hacc [[c Hc] Hx]. apply unpack_ints_4 in Hx as [zs Hu]. rewrite Hu.
  pose proof (unpack_ints_length _ _ _ Hu) as Hl.
  destruct zs as [|x1 [|y1 [|x2 [|y2 [|]]]]]; try done.
  rewrite Hc. destruct (class_in c vcs); rewrite !Hacc; by eexists.
Qed.

Lemma box_ops_outline env nm vcs box ops :
  box_ops env nm vcs box = inr ops →
  length ops = 3%nat
  ∧ Forall (λ op, draw_accepts env op = true) ops
  ∧ ∃ c, nm !! cls box = Some c
         ∧ outline_colours ops = [if class_in c vcs then red else green].
Proof.
  unfold box_ops.
  destruct (unpack_ints 4 (xyxy box)) as [|zs]; [done|].
  destruct zs as [|x1 [|y1 [|x2 [|y2 [|]]]]]; try done.
  destruct (nm !! cls box) as [c|]; [|done].
  destruct (class_in c vcs) eqn:E;
    match goal with |- context [draw_accepts env ?a && draw_accepts env ?b
                                && draw_accepts env ?c] =>
      destruct (draw_accepts env a) eqn:Ha; [|done];
      destruct (draw_accepts env b) eqn:Hb; [|done];
      destruct (draw_accepts env c) eqn:Hc; [|done]
    end; simpl; intros [= <-]; (split; [done|]);
    (split; [by repeat constructor|]); exists c; rewrite E;
    (split; [done|reflexivity]).
Qed.

Lemma outline_colours_app ops ops' :
  outline_colours (ops ++ ops') = outline_colours ops ++ outline_colours ops'.
Proof. apply omap_app. Qed.

Lemma draw_each_drawable env nm vcs bs ops :
  draw_each env nm vcs bs = inr ops → Forall (drawable nm) bs.
Proof.
  revert ops. induction bs as [|box bs IH]; intros ops; simpl; [by constructor|].
  destruct (box_ops env nm vcs box) as [|ops1] eqn:Hb; [done|].
  destruct (draw_each env nm vcs bs) as [|ops2]; [done|].
  intros _. constructor; [by eapply box_ops_drawable|by eapply IH].
Qed.

Lemma draw_each_accepted env nm vcs bs :
  (∀ op, draw_accepts env op = true) →
  Forall (drawable nm) bs → ∃ ops, draw_each env nm vcs bs = inr ops.
Proof.
  intros Hacc. induction 1 as [|box bs Hd _ [ops2 IH]]; simpl; [by eexists|].
  destruct (box_ops_accepted env nm vcs box Hacc Hd) as [ops1 ->].
  rewrite IH. by eexists.
Qed.

Lemma draw_each_outline env nm vcs bs ops :
  draw_each env nm vcs bs = inr ops →
  length ops = (3 * length bs)%nat
  ∧ Forall (λ op, draw_accepts env op = true) ops
  ∧ Forall2 (λ box colour,
       ∃ c, nm !! cls box = Some c
            ∧ colour = if class_in c vcs then red else green)
      bs (outline_colours ops).
Proof.
  revert ops. induction bs as [|box bs IH]; intros ops; simpl.
  { intros [= <-]. split; [done|]. split; constructor. }
  destruct (box_ops env nm vcs box) as [|ops1] eqn:Hb; [done|].
  destruct (draw_each env nm vcs bs) as [|ops2]; [done|].
  intros [= <-].
  destruct (box_ops_outline _ _ _ _ _ Hb) as (Hl & Ha & c & Hc & Ho).
  destruct (IH ops2 eq_refl) as (Hl2 & Ha2 & Hf).
  split; [rewrite length_app; lia|].
  split; [by apply Forall_app|].
  rewrite outline_colours_app, Ho. simpl. constructor; [by exists c|done].
Qed.

(** X9. When [draw_boxes] returns, every box of the result has a named
    class id and four coordinates, none an infinity or a NaN, and OpenCV
    accepted every drawing call: three for each box, one for the time stamp
    and, when there are violations, one for their count. Conversely, on such
    a result [draw_boxes] returns if OpenCV accepts the calls; and an
    exception other than [cv2.error] means that some box is not of that
    kind. *)
Theorem draw_boxes_returns (env : DrawEnv) (r : Result) (vs : list Detection) :
  (∀ ops, draw_boxes env r vs = inr ops →
     Forall (drawable (names r)) (boxes r)
     ∧ Forall (λ op, draw_accepts env op = true) ops
     ∧ length ops
       = (3 * length (boxes r) + 1 + (if vs is [] then 0 else 1))%nat)
  ∧ ((∀ op, draw_accepts env op = true) →
     Forall (drawable (names r)) (boxes r) →
     ∃ ops, draw_boxes env r vs = inr ops)
  ∧ (∀ ex, draw_boxes env r vs = inl ex → ex ≠ Cv2Error →
     ¬ Forall (drawable (names r)) (boxes r)).
Proof.
  unfold draw_boxes. split; [|split].
  - intros ops.
    destruct (draw_each env (names r) (d_class <$> vs) (boxes r)) as [|ops0] eqn:Hd;
      [done|].
    destruct (draw_each_outline _ _ _ _ _ Hd) as (Hl & Ha & _).
    pose proof (draw_each_drawable _ _ _ _ _ Hd) as Hdr.
    destruct (draw_accepts env (PutText (TimestampText _) _ _ _ _)) eqn:Hs; [|done].
    destruct vs as [|v vs].
    + intros [= <-]. split; [done|]. split.
      * apply Forall_app. split; [done|by repeat constructor].
      * rewrite length_app. simpl. lia.
    + destruct (draw_accepts env (PutText (ViolationsText _) _ _ _ _)) eqn:Hc; [|done].
      intros [= <-]. split; [done|]. split.
      * rewrite !Forall_app. repeat split; try done; by repeat constructor.
      * rewrite !length_app. simpl. lia.
  - intros Hacc Hdr.
    destruct (draw_each_accepted env (names r) (d_class <$> vs) (boxes r) Hacc Hdr)
      as [ops0 ->].
    rewrite !Hacc. destruct vs; by eexists.
  - intros ex Hex Hne Hdr.
    assert (Hbox : ∀ nm vcs box ex', drawable nm box →
              box_ops env nm vcs box = inl ex' → ex' = Cv2Error).
    { intros nm vcs box ex' [[c Hc] Hx]. unfold box_ops.
      apply unpack_ints_4 in Hx as [zs Hu]. rewrite Hu.
      pose proof (unpack_ints_length _ _ _ Hu) as Hl.
      destruct zs as [|x1 [|y1 [|x2 [|y2 [|]]]]]; try done.
      rewrite Hc.
      destruct (class_in c vcs);
        match goal with |- context [if ?b then _ else _] => destruct b end;
        congruence. }
    assert (Heach : ∀ nm vcs bs ex', Forall (drawable nm) bs →
              draw_each env nm vcs bs = inl ex' → ex' = Cv2Error).
    { intros nm vcs bs ex'. induction 1 as [|box bs Hb _ IH]; simpl; [done|].
      destruct (box_ops env nm vcs box) as [ex1|ops1] eqn:E1.
      - intros [= <-]. by eapply Hbox.
      - destruct (draw_each env nm vcs bs) as [ex2|ops2]; [|done].
        intros [= <-]. by apply IH. }
    destruct (draw_each env (names r) (d_class <$> vs) (boxes r)) as [ex0|ops0] eqn:Hd.
    + injection Hex as <-. apply Hne. by eapply Heach.
    + destruct (draw_accepts env (PutText (TimestampText _) _ _ _ _)); [|congruence].
      destruct vs as [|v vs]; [done|].
      destruct (draw_accepts env (PutText (ViolationsText _) _ _ _ _)); congruence.
Qed.

(** A drawable box that OpenCV refuses to draw: [cv2.error] leaves
    [draw_boxes]. *)
Example draw_boxes_cv2_error :
  let env := mkDrawEnv (λ _, 80) "2024-01-01 12:00:00"
               (λ op, match op with Rectangle _ _ _ _ => false | _ => true end) in
  Forall (drawable (names street_result)) (boxes street_result)
  ∧ draw_boxes env street_result [street_violation] = inl Cv2Error.
Proof.
  split; [|vm_compute; reflexivity].
  repeat constructor; try (by eexists); simpl;
    repeat eexists; unfold finite; by vm_compute.
Qed.

(** The time stamp and the count are texts: the outlines are those of the
    boxes. *)
Lemma draw_boxes_outline env r vs ops :
  draw_boxes env r vs = inr ops →
  ∃ ops0, draw_each env (names r) (d_class <$> vs) (boxes r) = inr ops0
          ∧ outline_colours ops0 = outline_colours ops.
Proof.
  unfold draw_boxes.
  destruct (draw_each env (names r) (d_class <$> vs) (boxes r)) as [|ops0]; [done|].
  destruct (draw_accepts env (PutText (TimestampText _) _ _ _ _)); [|done].
  destruct vs as [|v vs].
  - intros [= <-]. exists ops0. split; [done|].
    rewrite outline_colours_app. simpl. by rewrite app_nil_r.
  - destruct (draw_accepts env (PutText (ViolationsText _) _ _ _ _)); [|done].
    intros [= <-]. exists ops0. split; [done|].
    rewrite !outline_colours_app. simpl. by rewrite !app_nil_r.
Qed.

(** X10. In the frame that [draw_boxes] returns, the boxes are outlined in
    the order of the result, each in red when some violation has its class
    name and in green otherwise: the colour goes by the class name alone, so
    with no violations every box is green. *)
Theorem draw_boxes_colours (env : DrawEnv) (r : Result) (vs : list Detection)
    (ops : list DrawOp) :
  draw_boxes env r vs = inr ops →
  Forall2 (λ box colour,
     ∃ c, names r !! cls box = Some c
          ∧ (colour = red ↔ c ∈ d_class <$> vs)
          ∧ (colour = green ↔ c ∉ d_class <$> vs))
    (boxes r) (outline_colours ops)
  ∧ (vs = [] → Forall (λ colour, colour = green) (outline_colours ops)).
Proof.
  intros Hops. destruct (draw_boxes_outline _ _ _ _ Hops) as (ops0 & Hd & Heq).
  destruct (draw_each_outline _ _ _ _ _ Hd) as (_ & _ & Hf).
  assert (Ho : outline_colours ops0 = outline_colours ops →
               Forall2 (λ box colour,
                 ∃ c, names r !! cls box = Some c
                      ∧ (colour = red ↔ c ∈ d_class <$> vs)
                      ∧ (colour = green ↔ c ∉ d_class <$> vs))
                 (boxes r) (outline_colours ops)).
  { intros <-. eapply Forall2_impl; [exact Hf|].
    intros box colour (c & Hc & ->). exists c. split; [done|].
    unfold class_in. case_bool_decide; split; split; try done; intros; done. }
  split; [by apply Ho|].
  intros ->. rewrite <- Heq. clear Ho Heq Hops Hd.
  induction Hf as [|box colour bs cs (c & _ & ->) _ IH]; constructor; [|done].
  unfold class_in. by rewrite bool_decide_eq_false_2 by apply not_elem_of_nil.
Qed.

Lemma draw_boxes_colours_witness :
  let ops := street_ops in
  draw_boxes plain_draw_env street_result [street_violation] = inr ops
  ∧ Forall2 (λ box colour,
       ∃ c, names street_result !! cls box = Some c
            ∧ (colour = red ↔ c ∈ d_class <$> [street_violation])
            ∧ (colour = green ↔ c ∉ d_class <$> [street_violation]))
      (boxes street_result) (outline_colours ops)
  ∧ ([street_violation] = [] → Forall (λ colour, colour = green) (outline_colours ops)).
Proof.
  intros ops.
  assert (H : draw_boxes plain_draw_env street_result [street_violation] = inr ops)
    by (vm_compute; reflexivity).
  exact (conj H (draw_boxes_colours plain_draw_env street_result [street_violation]
                   ops H)).
Defined.

Lemma box_detections_member nm bs ds box c :
  box_detections nm bs = inr ds → box ∈ bs → nm !! cls box = Some c →
  mkDetection c (conf box) (xyxy box) ∈ ds.
Proof.
  revert ds. induction bs as [|b bs IH]; intros ds; simpl.
  { intros _ Hb. by apply not_elem_of_nil in Hb. }
  destruct (nm !! cls b) as [cb|] eqn:Hcb; [|done].
  destruct (box_detections nm bs) as [|ds']; [done|].
  intros [= <-] [->|Hb]%elem_of_cons Hc.
  - rewrite Hcb in Hc. injection Hc as ->. by left.
  - right. by apply IH.
Qed.

(** X11. The frame is drawn from the first result and the violations that
    [detect_violations] reported: every box of the first result that passed
    the filter is outlined in red, and every box whose class is not a
    violation class is outlined in green. *)
Theorem draw_boxes_marks_violations (cfg : Config) (env : DrawEnv) (r : Result)
    (rest : list Result) (vs : list Detection) (ops : list DrawOp)
    (i : nat) (box : Box) (c : string) :
  detect_violations cfg (r :: rest) = inr vs →
  draw_boxes env r vs = inr ops →
  boxes r !! i = Some box →
  names r !! cls box = Some c →
  (is_violation cfg c (conf box) = true → outline_colours ops !! i = Some red)
  ∧ (c ∉ violation_classes cfg → outline_colours ops !! i = Some green).
Proof.
  intros Hdet Hdraw Hi Hc.
  destruct (draw_boxes_outline _ _ _ _ Hdraw) as (ops0 & Hd & Heq).
  destruct (draw_each_outline _ _ _ _ _ Hd) as (_ & _ & Hf).
  rewrite Heq in Hf.
  destruct (Forall2_lookup_l _ _ _ _ _ Hf Hi) as (colour & Hcol & c' & Hc' & ->).
  rewrite Hc in Hc'. injection Hc' as <-. rewrite Hcol.
  rewrite detect_violations_filter in Hdet. simpl in Hdet.
  destruct (box_detections (names r) (boxes r)) as [|ds1] eqn:Hb; [done|].
  destruct (detections rest) as [|ds2]; [done|]. simpl in Hdet.
  injection Hdet as <-. unfold class_in. split.
  - intros Hv. rewrite bool_decide_eq_true_2; [done|].
    apply list_elem_of_fmap. exists (mkDetection c (conf box) (xyxy box)).
    split; [done|]. apply list_elem_of_filter. split.
    + by apply (is_violation_qualifies cfg (mkDetection c (conf box) (xyxy box))).
    + apply elem_of_app. left. eapply box_detections_member; [done| |done].
      by eapply list_elem_of_lookup_2.
  - intros Hn. rewrite bool_decide_eq_false_2; [done|].
    intros (d & -> & [[Hq _] _]%list_elem_of_filter)%list_elem_of_fmap. done.
Qed.

Lemma draw_boxes_marks_violations_witness :
  let box := mkBox 0 0x1.ccccccccccccdp-1%float [10.5; 20.25; 110; 220.75]%float in
  detect_violations helmet_cfg [street_result] = inr [street_violation]
  ∧ draw_boxes plain_draw_env street_result [street_violation] = inr street_ops
  ∧ boxes street_result !! 0%nat = Some box
  ∧ names street_result !! cls box = Some "no_helmet"%string
  ∧ (is_violation helmet_cfg "no_helmet" (conf box) = true →
     outline_colours street_ops !! 0%nat = Some red)
  ∧ ("no_helmet"%string ∉ violation_classes helmet_cfg →
     outline_colours street_ops !! 0%nat = Some green).
Proof.
  intros box.
  assert (H1 : detect_violations helmet_cfg [street_result] = inr [street_violation])
    by (vm_compute; reflexivity).
  assert (H2 : draw_boxes plain_draw_env street_result [street_violation]
               = inr street_ops) by (vm_compute; reflexivity).
  assert (H3 : boxes street_result !! 0%nat = Some box) by reflexivity.
  assert (H4 : names street_result !! cls box = Some "no_helmet"%string)
    by reflexivity.
  exact (conj H1 (conj H2 (conj H3 (conj H4
           (draw_boxes_marks_violations helmet_cfg plain_draw_env street_result []
              [street_violation] street_ops 0 box "no_helmet" H1 H2 H3 H4))))).
Defined.

(** ** The cooldown: how many alerts, and when none is held back *)

(** The frames at which a run calls the sender are each due when they
    come. *)
Lemma dispatch_times_due cfg frames st :
  due_in_turn (min_alert_interval st) (last_alert_time st)
    (dispatch_times cfg frames st).
Proof.
  revert st. induction frames as [|e frames IH]; intros st; [done|].
  rewrite dispatch_times_cons.
  destruct (process_frame_dispatched cfg e st) as [Hm Hd].
  specialize (IH (snd (process_frame cfg e st))). rewrite Hm in IH.
  assert (Hrest : due_in_turn (min_alert_interval st)
                    (last_alert_time (snd (process_frame cfg e st)))
                    match process_frame cfg e st with
                    | (inr Continue, st') => dispatch_times cfg frames st'
                    | _ => []
                    end).
  { destruct (process_frame cfg e st) as [[ex|[]] st1]; simpl in *; done. }
  destruct (dispatched cfg e st).
  - destruct Hd as (Hdue & _ & Hrec). simpl. split; [done|]. by rewrite <- Hrec.
  - simpl. by rewrite <- Hd.
Qed.

(** The alerts after a recorded time [l]: the one at position [k] comes more
    than [k + 1] cooldowns after [l]. *)
Lemma due_in_turn_gap m l ts k t :
  0 ≤ m →
  due_in_turn m (Some l) ts →
  ts !! k = Some t →
  m * (Z.of_nat k + 1) < t - l.
Proof.
  intros Hm. revert l k. induction ts as [|t0 ts IH]; intros l k; [done|].
  simpl. intros [Hd Hrest]. apply Z.ltb_lt in Hd.
  destruct k as [|k]; simpl.
  - intros [= <-]. lia.
  - intros Hk. specialize (IH _ _ Hrest Hk). lia.
Qed.

Lemma due_in_turn_drop m last ts i ti :
  due_in_turn m last ts →
  ts !! i = Some ti →
  due_in_turn m (Some ti) (drop (S i) ts).
Proof.
  revert last i. induction ts as [|t0 ts IH]; intros last i; [done|].
  simpl. intros [Hd Hrest]. destruct i as [|i]; simpl.
  - intros [= <-]. by rewrite drop_0.
  - by apply (IH (Some t0)).
Qed.

(** X12. The cooldown bounds the rate of alerts: with a cooldown that is not
    negative, of the frames of a run of the loop at which the sender is
    called (from any state, the clock going as it likes) the one at position
    [j] comes more than [j - i] cooldowns after the one at position [i]; so
    [n + 1] alerts never fit in a time of [n] cooldowns. *)
Theorem alerts_spaced_by_cooldown (cfg : Config) (frames : list FrameEnv)
    (st : State) (i j : nat) (ti tj : Z) :
  0 ≤ min_alert_interval st →
  (i < j)%nat →
  dispatch_times cfg frames st !! i = Some ti →
  dispatch_times cfg frames st !! j = Some tj →
  min_alert_interval st * (Z.of_nat j - Z.of_nat i) < tj - ti.
Proof.
  intros Hm Hij Hi Hj.
  pose proof (due_in_turn_drop _ _ _ _ _ (dispatch_times_due cfg frames st) Hi) as Hd.
  assert (Hk : drop (S i) (dispatch_times cfg frames st) !! (j - S i)%nat = Some tj).
  { rewrite lookup_drop. by replace (S i + (j - S i))%nat with j by lia. }
  replace (Z.of_nat j - Z.of_nat i) with (Z.of_nat (j - S i) + 1) by lia.
  by apply (due_in_turn_gap _ _ _ _ _ Hm Hd Hk).
Qed.

Lemma alerts_spaced_by_cooldown_witness :
  let frames := (λ t, helmet_frame true t None)
                <$> [0; 5000000; 11000000; 12000000; 30000000; 25000000;
                     41000000] in
  let st := init helmet_cfg in
  0 ≤ min_alert_interval st
  ∧ (0 < 2)%nat
  ∧ dispatch_times helmet_cfg frames st !! 0%nat = Some 0
  ∧ dispatch_times helmet_cfg frames st !! 2%nat = Some 30000000
  ∧ min_alert_interval st * (Z.of_nat 2 - Z.of_nat 0) < 30000000 - 0.
Proof.
  intros frames st.
  assert (H1 : 0 ≤ min_alert_interval st) by (vm_compute; discriminate).
  assert (H2 : (0 < 2)%nat) by lia.
  assert (H3 : dispatch_times helmet_cfg frames st !! 0%nat = Some 0)
    by (vm_compute; reflexivity).
  assert (H4 : dispatch_times helmet_cfg frames st !! 2%nat = Some 30000000)
    by (vm_compute; reflexivity).
  exact (conj H1 (conj H2 (conj H3 (conj H4
           (alerts_spaced_by_cooldown helmet_cfg frames st 0 2 0 30000000
              H1 H2 H3 H4))))).
Defined.

(** X13. The cooldown holds back nothing it should not: with alerts and
    screenshots enabled, in a run over frames that all show violations and
    are drawn, with no [q] pressed, when the first frame is due and every
    frame comes more than the cooldown after the frame before it, the run
    returns, the sender is called at every frame and the time of the last
    frame is the one recorded. *)
Theorem spaced_frames_all_alert (cfg : Config) (frames : list FrameEnv)
    (st : State) :
  enable_alerts cfg = true →
  save_screenshots cfg = true →
  Forall (λ e, show_preview cfg && key_is_q e = false
               ∧ ∃ v vs ops,
                   detect_violations cfg (env_results e) = inr (v :: vs)
                   ∧ draw_frame e (v :: vs) = inr ops) frames →
  (∀ e, head frames = Some e →
        alert_due (last_alert_time st) (min_alert_interval st) (now e) = true) →
  (∀ i a b, frames !! i = Some a → frames !! S i = Some b →
            min_alert_interval st < now b - now a) →
  fst (run_frames cfg frames st) = inr ()
  ∧ dispatch_times cfg frames st = now <$> frames
  ∧ last_alert_time (snd (run_frames cfg frames st))
    = match last frames with
      | Some e => Some (now e)
      | None => last_alert_time st
      end.
Proof.
  intros He Hs Hall. revert st.
  induction Hall as [|e frames (Hk & v & vs & ops & Hdet & Hdraw) _ IH];
    intros st Hhead Hgap; [done|].
  destruct (process_frame_alerts cfg e st v vs ops Hdet Hdraw He Hs
              (Hhead e eq_refl)) as [Hdisp Hfst].
  destruct (process_frame_dispatched cfg e st) as [Hm Hd].
  rewrite Hdisp in Hd. destruct Hd as (_ & _ & Hrec). rewrite Hk in Hfst.
  rewrite dispatch_times_cons, Hdisp. simpl run_frames. unfold mbind, M_bind.
  destruct (process_frame cfg e st) as [r st1]. simpl in Hfst, Hm, Hrec. subst r.
  destruct (IH st1) as (H1 & H2 & H3).
  { intros e' He'. rewrite Hrec, Hm. simpl. apply Z.ltb_lt.
    apply (Hgap 0%nat); [done|]. simpl. by destruct frames; simplify_eq/=. }
  { intros i a b Ha Hb. rewrite Hm. by apply (Hgap (S i)). }
  split; [done|]. split; [simpl; by rewrite H2|].
  rewrite H3, last_cons. by destruct (last frames).
Qed.

Lemma spaced_frames_all_alert_witness :
  let frames := (λ t, helmet_frame true t None)
                <$> [100000000; 111000000; 125000000; 136000000] in
  let st := init helmet_cfg in
  enable_alerts helmet_cfg = true
  ∧ save_screenshots helmet_cfg = true
  ∧ Forall (λ e, show_preview helmet_cfg && key_is_q e = false
                 ∧ ∃ v vs ops,
                     detect_violations helmet_cfg (env_results e) = inr (v :: vs)
                     ∧ draw_frame e (v :: vs) = inr ops) frames
  ∧ (∀ e, head frames = Some e →
          alert_due (last_alert_time st) (min_alert_interval st) (now e) = true)
  ∧ (∀ i a b, frames !! i = Some a → frames !! S i = Some b →
              min_alert_interval st < now b - now a)
  ∧ fst (run_frames helmet_cfg frames st) = inr ()
  ∧ dispatch_times helmet_cfg frames st = now <$> frames
  ∧ last_alert_time (snd (run_frames helmet_cfg frames st))
    = match last frames with
      | Some e => Some (now e)
      | None => last_alert_time st
      end.
Proof.
  intros frames st.
  assert (H1 : enable_alerts helmet_cfg = true) by reflexivity.
  assert (H2 : save_screenshots helmet_cfg = true) by reflexivity.
  assert (H3 : Forall (λ e, show_preview helmet_cfg && key_is_q e = false
                 ∧ ∃ v vs ops,
                     detect_violations helmet_cfg (env_results e) = inr (v :: vs)
                     ∧ draw_frame e (v :: vs) = inr ops) frames).
  { repeat constructor; exists helmet_violation, [], helmet_ops;
      split; vm_compute; reflexivity. }
  assert (H4 : ∀ e, head frames = Some e →
            alert_due (last_alert_time st) (min_alert_interval st) (now e) = true)
    by done.
  assert (H5 : ∀ i a b, frames !! i = Some a → frames !! S i = Some b →
            min_alert_interval st < now b - now a).
  { intros [|[|[|[|i]]]] a b Ha Hb; simplify_eq/=; reflexivity. }
  exact (conj H1 (conj H2 (conj H3 (conj H4 (conj H5
           (spaced_frames_all_alert helmet_cfg frames st H1 H2 H3 H4 H5)))))).
Defined.

(** ** Counting frames, violations and screenshots *)

Lemma process_frame_counters cfg e st :
  let st' := snd (process_frame cfg e st) in
  frame_count st' = frame_count st + 1
  ∧ violation_count st ≤ violation_count st' ≤ violation_count st + 1
  ∧ (violation_count st' = violation_count st + 1
     ↔ ∃ v vs ops, detect_violations cfg (env_results e) = inr (v :: vs)
                   ∧ draw_frame e (v :: vs) = inr ops).
Proof.
  destruct (process_frame_cases cfg e st)
    as [ex Hd|vs0 ex Hd Hr|ops Hd Hr|v vs ops st2 Hd Hr -> Hs
        |v vs ops st2 Hd Hr -> He Hdue Hp|v vs ops st2 ip Hd Hr -> He Hdue Hp];
    rewrite ?finish_frame_state; simpl;
    try (destruct (before_alert_counters cfg e (length (v :: vs))
                    (snd (incr_frame_count st))) as [Hbf Hbv];
         simpl in Hbf, Hbv; rewrite Hbf, Hbv).
  all: split; [done|]; split; [lia|]; split.
  all: try (intros _; by eauto).
  all: try lia.
  all: intros (? & ? & ? & ? & ?); congruence.
Qed.

Lemma filter_alert_events p e token chat ip vs :
  (∀ ev, p ev = true → is_imwrite ev = true ∨ is_saved ev = true) →
  List.filter p (alert_events e token chat ip vs) = [].
Proof.
  intros Hp.
  assert (Hno : ∀ evs, Forall (λ ev, is_imwrite ev = false ∧ is_saved ev = false) evs →
            List.filter p evs = []).
  { induction 1 as [|ev evs [H1 H2] _ IH]; [done|]. simpl.
    destruct (p ev) eqn:E; [|done]. destruct (Hp ev E); congruence. }
  apply Hno. destruct vs as [|v vs]; [by repeat constructor|].
  unfold alert_events, send_violation_alert, try_except, call, mbind, M_bind,
    emit, raise, alert_handler. simpl.
  destruct (bot_ctor e) as [ex|]; simpl; [destruct ex; by repeat constructor|].
  destruct (image_available e ip); simpl; [|by repeat constructor].
  destruct (open_photo e) as [ex|]; simpl; [destruct ex; by repeat constructor|].
  destruct (send_photo e) as [ex|]; simpl;
    [destruct ex; by repeat constructor|by repeat constructor].
Qed.

Lemma imwrite_calls_add_trace evs st :
  imwrite_calls (add_trace evs st)
  = imwrite_calls st + Z.of_nat (length (List.filter is_imwrite evs)).
Proof.
  unfold imwrite_calls, add_trace. simpl.
  rewrite List.filter_app, length_app. lia.
Qed.

Lemma screenshots_saved_add_trace evs st :
  screenshots_saved (add_trace evs st)
  = screenshots_saved st + Z.of_nat (length (List.filter is_saved evs)).
Proof.
  unfold screenshots_saved, add_trace. simpl.
  rewrite List.filter_app, length_app. lia.
Qed.

Lemma imwrite_calls_finish cfg st :
  imwrite_calls (add_trace (finish_events cfg) st) = imwrite_calls st.
Proof.
  rewrite imwrite_calls_add_trace. unfold finish_events.
  destruct (save_output cfg), (show_preview cfg); simpl; lia.
Qed.

Lemma screenshots_saved_finish cfg st :
  screenshots_saved (add_trace (finish_events cfg) st) = screenshots_saved st.
Proof.
  rewrite screenshots_saved_add_trace. unfold finish_events.
  destruct (save_output cfg), (show_preview cfg); simpl; lia.
Qed.

Lemma imwrite_calls_before_alert cfg e n st :
  imwrite_calls (before_alert cfg e n st)
  = imwrite_calls st + (if save_screenshots cfg then 1 else 0).
Proof.
  unfold imwrite_calls. rewrite before_alert_trace.
  rewrite List.filter_app, length_app.
  destruct (save_screenshots cfg); simpl; lia.
Qed.

Lemma screenshots_saved_before_alert cfg e n st :
  screenshots_saved (before_alert cfg e n st)
  = screenshots_saved st + (if save_screenshots cfg && imwrite_ok e then 1 else 0).
Proof.
  unfold screenshots_saved. rewrite before_alert_trace.
  rewrite List.filter_app, length_app.
  destruct (save_screenshots cfg), (imwrite_ok e); simpl; lia.
Qed.

(** A frame calls [cv2.imwrite] once when it is counted as a frame with
    violations and screenshots are enabled, and not otherwise; the file is
    written when the call answers true. *)
Lemma process_frame_screenshots cfg e st :
  let st' := snd (process_frame cfg e st) in
  imwrite_calls st' - imwrite_calls st
  = (if save_screenshots cfg then violation_count st' - violation_count st else 0)
  ∧ screenshots_saved st' - screenshots_saved st
    = (if save_screenshots cfg && imwrite_ok e
       then violation_count st' - violation_count st else 0).
Proof.
  destruct (process_frame_cases cfg e st)
    as [ex Hd|vs0 ex Hd Hr|ops Hd Hr|v vs ops st2 Hd Hr -> Hs
        |v vs ops st2 Hd Hr -> He Hdue Hp|v vs ops st2 ip Hd Hr -> He Hdue Hp];
    rewrite ?finish_frame_state; simpl;
    rewrite ?imwrite_calls_finish, ?screenshots_saved_finish;
    try change (imwrite_calls (record_alert (now e) ?s)) with (imwrite_calls s);
    try change (screenshots_saved (record_alert (now e) ?s))
          with (screenshots_saved s);
    rewrite ?imwrite_calls_add_trace, ?screenshots_saved_add_trace,
      ?(filter_alert_events is_imwrite), ?(filter_alert_events is_saved),
      ?imwrite_calls_before_alert, ?screenshots_saved_before_alert by auto;
    try (destruct (before_alert_counters cfg e (length (v :: vs))
                     (snd (incr_frame_count st))) as [_ Hbv];
         simpl in Hbv; rewrite Hbv);
    unfold imwrite_calls, screenshots_saved; simpl;
    destruct (save_screenshots cfg), (imwrite_ok e); simpl; lia.
Qed.

Lemma run_frames_cons cfg e frames st :
  run_frames cfg (e :: frames) st
  = match process_frame cfg e st with
    | (inl ex, st') => (inl ex, st')
    | (inr Break, st') => (inr (), st')
    | (inr Continue, st') => run_frames cfg frames st'
    end.
Proof.
  simpl. unfold mbind, M_bind.
  by destruct (process_frame cfg e st) as [[ex|[]] st'].
Qed.

Lemma run_frames_counters cfg frames st :
  let r := run_frames cfg frames st in
  frame_count st ≤ frame_count (snd r) ≤ frame_count st + Z.of_nat (length frames)
  ∧ 0 ≤ violation_count (snd r) - violation_count st
      ≤ frame_count (snd r) - frame_count st
  ∧ imwrite_calls (snd r) - imwrite_calls st
    = (if save_screenshots cfg
       then violation_count (snd r) - violation_count st else 0)
  ∧ (fst r = inr () → show_preview cfg = false →
     frame_count (snd r) = frame_count st + Z.of_nat (length frames)).
Proof.
  revert st. induction frames as [|e frames IH]; intros st.
  { simpl. destruct (save_screenshots cfg); repeat split; lia. }
  rewrite run_frames_cons.
  pose proof (process_frame_counters cfg e st) as (Hf & Hv & _).
  pose proof (process_frame_screenshots cfg e st) as [Hs _].
  assert (Hc : ∀ c s, process_frame cfg e st = (inr c, s) →
               show_preview cfg = false → c = Continue).
  { intros c s Hrun Hp. revert Hrun.
    destruct (process_frame_cases cfg e st); rewrite ?finish_frame_state, ?Hp;
      simpl; congruence. }
  destruct (process_frame cfg e st) as [[ex|[]] st1] eqn:Hrun; simpl in *.
  - destruct (save_screenshots cfg); repeat split; try lia; done.
  - specialize (IH st1). simpl in IH. destruct IH as (IH1 & IH2 & IH3 & IH4).
    destruct (save_screenshots cfg); repeat split; try lia;
      intros Hr Hp; specialize (IH4 Hr Hp); lia.
  - destruct (save_screenshots cfg); repeat split; try lia;
      intros _ Hp; by specialize (Hc _ _ eq_refl Hp).
Qed.

(** The frames are processed in the state a fresh call starts from; the
    closing line is printed when the loop ends without an exception. *)
Lemma process_video_result cfg frames st :
  process_video cfg frames st
  = match run_frames cfg frames
            (add_trace [Printed LineProcessing] (snd (enter_process_video st))) with
    | (inl ex, s1) => (inl ex, s1)
    | (inr _, s1) =>
        (inr (),
         add_trace [Printed (LineComplete (frame_count s1) (violation_count s1))] s1)
    end.
Proof.
  rewrite process_video_unfold. unfold mbind, M_bind.
  by destruct (run_frames cfg frames _) as [[ex|[]] s1].
Qed.


(** What a run writes is among what it asks [cv2.imwrite] to write. *)
Lemma run_frames_saved cfg frames st :
  0 ≤ screenshots_saved (snd (run_frames cfg frames st)) - screenshots_saved st
    ≤ imwrite_calls (snd (run_frames cfg frames st)) - imwrite_calls st
  ∧ (Forall (λ e, imwrite_ok e = true) frames →
     screenshots_saved (snd (run_frames cfg frames st)) - screenshots_saved st
     = imwrite_calls (snd (run_frames cfg frames st)) - imwrite_calls st)
  ∧ (Forall (λ e, imwrite_ok e = false) frames →
     screenshots_saved (snd (run_frames cfg frames st)) = screenshots_saved st).
Proof.
  revert st. induction frames as [|e frames IH]; intros st.
  { simpl. repeat split; lia. }
  rewrite run_frames_cons.
  pose proof (process_frame_counters cfg e st) as (_ & Hv & _).
  pose proof (process_frame_screenshots cfg e st) as [Hc Hs].
  assert (Hone : 0 ≤ screenshots_saved (snd (process_frame cfg e st))
                     - screenshots_saved st
                   ≤ imwrite_calls (snd (process_frame cfg e st)) - imwrite_calls st
                 ∧ (imwrite_ok e = true →
                    screenshots_saved (snd (process_frame cfg e st))
                    - screenshots_saved st
                    = imwrite_calls (snd (process_frame cfg e st)) - imwrite_calls st)
                 ∧ (imwrite_ok e = false →
                    screenshots_saved (snd (process_frame cfg e st))
                    = screenshots_saved st)).
  { simpl in Hc, Hs, Hv.
    destruct (save_screenshots cfg), (imwrite_ok e); simpl in *;
      repeat split; try lia; done. }
  clear Hc Hs Hv. destruct Hone as (H1 & H2 & H3).
  destruct (process_frame cfg e st) as [[ex|[]] st1]; simpl in *.
  - repeat split; [lia|lia|..]; intros Hall; inversion_clear Hall; auto.
  - destruct (IH st1) as (I1 & I2 & I3).
    repeat split; [lia|lia|..]; intros Hall; inversion_clear Hall.
    + specialize (I2 ltac:(done)). specialize (H2 ltac:(done)). lia.
    + specialize (I3 ltac:(done)). specialize (H3 ltac:(done)). lia.
  - repeat split; [lia|lia|..]; intros Hall; inversion_clear Hall; auto.
Qed.

(** X15. Screenshots are not held back by the cooldown: when screenshots are
    enabled a run of the loop calls [cv2.imwrite] once for every frame
    counted as a frame with violations, alert or no alert, and when they are
    disabled it never calls it. The screenshots written are among these
    calls: all of them when every call answers true, none when every call
    answers false. *)
Theorem screenshot_for_every_violation_frame (cfg : Config) (frames : list FrameEnv)
    (st : State) :
  imwrite_calls (snd (run_frames cfg frames st)) - imwrite_calls st
  = (if save_screenshots cfg
     then violation_count (snd (run_frames cfg frames st)) - violation_count st
     else 0)
  ∧ imwrite_calls (snd (process_video cfg frames st)) - imwrite_calls st
    = (if save_screenshots cfg
       then violation_count (snd (process_video cfg frames st))
       else 0)
  ∧ 0 ≤ screenshots_saved (snd (run_frames cfg frames st)) - screenshots_saved st
      ≤ imwrite_calls (snd (run_frames cfg frames st)) - imwrite_calls st
  ∧ (Forall (λ e, imwrite_ok e = true) frames →
     screenshots_saved (snd (run_frames cfg frames st)) - screenshots_saved st
     = imwrite_calls (snd (run_frames cfg frames st)) - imwrite_calls st)
  ∧ (Forall (λ e, imwrite_ok e = false) frames →
     screenshots_saved (snd (run_frames cfg frames st)) = screenshots_saved st).
Proof.
  split; [apply run_frames_counters|]. split; [|apply run_frames_saved].
  rewrite process_video_result.
  set (s0 := add_trace [Printed LineProcessing] (snd (enter_process_video st))).
  pose proof (run_frames_counters cfg frames s0) as (_ & _ & H3 & _).
  assert (Hs0 : imwrite_calls s0 = imwrite_calls st).
  { unfold s0. rewrite imwrite_calls_add_trace. simpl.
    unfold imwrite_calls. simpl. lia. }
  change (violation_count s0) with 0 in H3. rewrite Hs0 in H3.
  destruct (run_frames cfg frames s0) as [[ex|[]] s1]; simpl in *.
  - destruct (save_screenshots cfg); lia.
  - rewrite imwrite_calls_add_trace. simpl.
    destruct (save_screenshots cfg); lia.
Qed.

(** A run in which the second of three screenshots is not written. *)
Example screenshots_of_a_run :
  let frames := [helmet_frame true 0 None; helmet_frame false 1000000 None;
                 person_frame; helmet_frame true 2000000 None] in
  let st' := snd (run_frames helmet_cfg frames (init helmet_cfg)) in
  violation_count st' = 3 ∧ imwrite_calls st' = 3 ∧ screenshots_saved st' = 2.
Proof. vm_compute. repeat split. Qed.

(** ** Runs that send nothing *)

Lemma silent_enter_process_video st : silent st (snd (enter_process_video st)).
Proof. repeat split. exists []. simpl. by rewrite app_nil_r. Qed.

(** X16. With [enable_alerts] false, [process_video] never builds a bot and
    never sends anything, whatever the frames show, and leaves
    [last_alert_time] as it was. *)
Theorem alerts_disabled_sends_nothing (cfg : Config) (frames : list FrameEnv)
    (st : State) :
  enable_alerts cfg = false →
  last_alert_time (snd (process_video cfg frames st)) = last_alert_time st
  ∧ Forall (λ ev, is_network ev = false)
      (new_events st (snd (process_video cfg frames st))).
Proof.
  intros He.
  assert (Hs : silent st (snd (process_video cfg frames st))).
  { apply (process_video_rel (λ _, True) silent silent_trans); try done.
    - intros s. apply silent_enter_process_video.
    - intros e vs s _. rewrite alert_with_cooldown_suppressed by auto.
      apply silent_refl. }
  split; [apply Hs|by apply silent_new_events].
Qed.

Lemma alerts_disabled_sends_nothing_witness :
  let cfg := mkConfig 0.5%float ["no_helmet"%string] true "shots" 10 false "token"
               "chat" true false in
  let frames := [helmet_frame true 0 None; helmet_frame true 20000000 None] in
  enable_alerts cfg = false
  ∧ last_alert_time (snd (process_video cfg frames (init cfg)))
    = last_alert_time (init cfg)
  ∧ Forall (λ ev, is_network ev = false)
      (new_events (init cfg) (snd (process_video cfg frames (init cfg)))).
Proof.
  intros cfg frames.
  exact (conj eq_refl (alerts_disabled_sends_nothing cfg frames (init cfg) eq_refl)).
Defined.

Lemma run_frames_in_cooldown cfg frames l m st :
  last_alert_time st = Some l →
  min_alert_interval st = m →
  Forall (λ e, now e - l ≤ m) frames →
  silent st (snd (run_frames cfg frames st)).
Proof.
  intros Hl Hm Hall. revert st Hl Hm.
  induction Hall as [|e frames He _ IH]; intros st Hl Hm; [apply silent_refl|].
  rewrite run_frames_cons.
  assert (Hs : silent st (snd (process_frame cfg e st))).
  { apply (process_frame_rel
             (λ s, last_alert_time s = Some l ∧ min_alert_interval s = m)
             silent silent_trans); [|done| |done].
    - intros s s' [Hsl Hsm] (Hl' & Hm' & _). by rewrite Hl', Hm'.
    - intros vs s [Hsl Hsm]. rewrite alert_with_cooldown_suppressed.
      + apply silent_refl.
      + right. rewrite Hsl, Hsm. simpl. lia. }
  destruct (process_frame cfg e st) as [[ex|[]] st1]; simpl in *; try done.
  eapply silent_trans; [exact Hs|]. destruct Hs as (Hl1 & Hm1 & _).
  apply IH; congruence.
Qed.

(** X17. While the cooldown lasts nothing is sent: when an alert time is
    recorded and every frame of a video is read within the cooldown of it
    (or before it), [process_video] sends nothing for that video and leaves
    the recorded time as it was, however many violations the frames show. *)
Theorem video_within_cooldown_sends_nothing (cfg : Config) (frames : list FrameEnv)
    (st : State) (l : Z) :
  last_alert_time st = Some l →
  Forall (λ e, now e - l ≤ min_alert_interval st) frames →
  last_alert_time (snd (process_video cfg frames st)) = Some l
  ∧ Forall (λ ev, is_network ev = false)
      (new_events st (snd (process_video cfg frames st))).
Proof.
  intros Hl Hall.
  assert (Hs : silent st (snd (process_video cfg frames st))).
  { rewrite process_video_result.
    set (s0 := add_trace [Printed LineProcessing] (snd (enter_process_video st))).
    assert (Hs0 : silent st s0).
    { repeat split. exists [Printed LineProcessing].
      split; [done|by repeat constructor]. }
    pose proof (run_frames_in_cooldown cfg frames l (min_alert_interval st) s0
                  Hl eq_refl Hall) as Hrun.
    destruct (run_frames cfg frames s0) as [[ex|[]] s1]; simpl in *.
    - by eapply silent_trans.
    - eapply silent_trans; [exact Hs0|]. eapply silent_trans; [exact Hrun|].
      apply silent_add_trace. by repeat constructor. }
  split; [destruct Hs as [-> _]; done|by apply silent_new_events].
Qed.

Lemma video_within_cooldown_sends_nothing_witness :
  let st := record_alert 5000000 (init helmet_cfg) in
  let frames := [helmet_frame true 6000000 None; helmet_frame true 15000000 None;
                 helmet_frame true 100 None] in
  last_alert_time st = Some 5000000
  ∧ Forall (λ e, now e - 5000000 ≤ min_alert_interval st) frames
  ∧ last_alert_time (snd (process_video helmet_cfg frames st)) = Some 5000000
  ∧ Forall (λ ev, is_network ev = false)
      (new_events st (snd (process_video helmet_cfg frames st))).
Proof.
  intros st frames.
  assert (H2 : Forall (λ e, now e - 5000000 ≤ min_alert_interval st) frames).
  { repeat constructor; vm_compute; discriminate. }
  exact (conj eq_refl (conj H2
           (video_within_cooldown_sends_nothing helmet_cfg frames st 5000000
              eq_refl H2))).
Defined.

(** ** Frames that end the run, and frames that show nothing *)

Lemma process_frame_ctl cfg e st c st' :
  process_frame cfg e st = (inr c, st') →
  c = if show_preview cfg && key_is_q e then Break else Continue.
Proof.
  destruct (process_frame_cases cfg e st); rewrite ?finish_frame_state;
    congruence.
Qed.

(** X18. Pressing [q] stops the run only when the preview is shown: with
    [show_preview] true a frame at which [q] is read is the last frame
    processed; with [show_preview] false the key is not read and the loop
    goes on to the next frame unless the frame raised. *)
Theorem quit_key_stops_the_loop (cfg : Config) (e : FrameEnv) (rest : list FrameEnv)
    (st : State) :
  (show_preview cfg = true → key_is_q e = true →
   run_frames cfg (e :: rest) st = run_frames cfg [e] st)
  ∧ (show_preview cfg = false ∨ key_is_q e = false →
     run_frames cfg (e :: rest) st
     = match process_frame cfg e st with
       | (inl ex, st') => (inl ex, st')
       | (inr _, st') => run_frames cfg rest st'
       end).
Proof.
  split.
  - intros Hp Hk. rewrite !run_frames_cons.
    destruct (process_frame cfg e st) as [[ex|c] st'] eqn:Hrun; [done|].
    apply process_frame_ctl in Hrun. rewrite Hp, Hk in Hrun. by subst c.
  - intros Hn. rewrite run_frames_cons.
    destruct (process_frame cfg e st) as [[ex|c] st'] eqn:Hrun; [done|].
    apply process_frame_ctl in Hrun.
    assert (show_preview cfg && key_is_q e = false) as Hb
      by (destruct Hn as [-> | ->]; [done|apply andb_false_r]).
    rewrite Hb in Hrun. by subst c.
Qed.

(** X19. A frame that cannot be scanned ends the run: when
    [detect_violations] raises, and when the model returns no result at all
    ([results[0]] raises [IndexError]), the frame is counted, nothing is
    printed, written or sent for it, the exception leaves the loop and the
    frames after it are not processed. *)
Theorem unscannable_frame_ends_the_run (cfg : Config) (e : FrameEnv)
    (rest : list FrameEnv) (st : State) :
  (∀ ex, detect_violations cfg (env_results e) = inl ex →
         run_frames cfg (e :: rest) st = (inl ex, snd (incr_frame_count st)))
  ∧ (env_results e = [] →
     run_frames cfg (e :: rest) st = (inl IndexError, snd (incr_frame_count st))).
Proof.
  split.
  - intros ex Hex. rewrite run_frames_cons.
    destruct (process_frame_cases cfg e st); congruence.
  - intros Hr. rewrite run_frames_cons.
    destruct (process_frame_cases cfg e st)
      as [ex Hd|vs ex Hd Hdr|ops Hd Hdr|v vs ops st2 Hd Hdr|v vs ops st2 Hd Hdr
          |v vs ops st2 ip Hd Hdr];
      unfold draw_frame in *; rewrite Hr in *; try done; try congruence;
      by rewrite detect_violations_nil in *.
Qed.

(** X20. A frame in which the filter finds nothing, once line 93 has
    drawn it, only goes to the output: it is counted, written to the output
    video and shown as configured, and nothing else happens; no line is
    printed, no screenshot is written, the sender is not called, and the
    violation count, [last_alert_time] and [screenshot_path] stay as they
    were. *)
Theorem frame_without_violations (cfg : Config) (e : FrameEnv) (st : State)
    (ops : list DrawOp) :
  detect_violations cfg (env_results e) = inr [] →
  draw_frame e [] = inr ops →
  process_frame cfg e st
  = (inr (if show_preview cfg && key_is_q e then Break else Continue),
     add_trace (finish_events cfg) (snd (incr_frame_count st)))
  ∧ new_events st (snd (process_frame cfg e st)) = finish_events cfg.
Proof.
  intros Hd Hr.
  assert (Hrun : process_frame cfg e st
                 = (inr (if show_preview cfg && key_is_q e then Break else Continue),
                    add_trace (finish_events cfg) (snd (incr_frame_count st)))).
  { destruct (process_frame_cases cfg e st); rewrite ?finish_frame_state;
      congruence. }
  split; [done|]. rewrite Hrun. by apply new_events_app.
Qed.

Lemma frame_without_violations_witness :
  let e := person_frame in
  let ops := [Rectangle (300, 40) (380, 260) green 2;
              Rectangle (300, 15) (380, 40) green (-1);
              PutText (BoxLabel false "person" 0x1.fae147ae147aep-1%float)
                (300, 35) 0.5%float white 2;
              PutText (TimestampText "2024-01-01 12:00:00") (10, 30) 1%float
                white 2] in
  detect_violations helmet_cfg (env_results e) = inr []
  ∧ draw_frame e [] = inr ops
  ∧ process_frame helmet_cfg e (init helmet_cfg)
    = (inr (if show_preview helmet_cfg && key_is_q e then Break else Continue),
       add_trace (finish_events helmet_cfg) (snd (incr_frame_count (init helmet_cfg))))
  ∧ new_events (init helmet_cfg) (snd (process_frame helmet_cfg e (init helmet_cfg)))
    = finish_events helmet_cfg.
Proof.
  intros e ops.
  assert (H1 : detect_violations helmet_cfg (env_results e) = inr [])
    by (vm_compute; reflexivity).
  assert (H2 : draw_frame e [] = inr ops) by (vm_compute; reflexivity).
  exact (conj H1 (conj H2
           (frame_without_violations helmet_cfg e (init helmet_cfg) ops H1 H2))).
Defined.

(** A frame that the filter passes but line 93 cannot draw: a [person]
    whose box has a NaN coordinate. [ValueError] leaves the loop before
    anything is written to the output. *)
Example undrawable_frame_raises :
  let e := mkFrameEnv
             [mkResult [mkBox 1 0x1.fae147ae147aep-1%float
                          [300; nan; 380; 260]%float] helmet_names]
             "20240101_120000" true 0 None (λ _, true) None None false
             plain_draw_env in
  detect_violations helmet_cfg (env_results e) = inr []
  ∧ process_frame helmet_cfg e (init helmet_cfg)
    = (inl ValueError, snd (incr_frame_count (init helmet_cfg))).
Proof. vm_compute. split; reflexivity. Qed.

(** ** The alert of a frame *)

Lemma alert_events_photo e token chat ip vs c p cap :
  SendPhoto c p cap ∈ alert_events e token chat ip vs →
  c = chat ∧ ip = Some p ∧ cap = alert_caption vs.
Proof.
  destruct vs as [|v vs]; [unfold alert_events; simpl; solve_mem|].
  run_alert.
  destruct (bot_ctor e) as [ex|]; simpl; [destruct ex; simpl; solve_mem|].
  destruct (image_available e ip) eqn:Hi; simpl; [|solve_mem].
  destruct (image_available_path _ _ Hi) as (p0 & -> & _). simpl.
  destruct (open_photo e) as [ex|]; simpl; [destruct ex; simpl; solve_mem|].
  destruct (send_photo e) as [ex|]; simpl; [destruct ex; simpl|]; solve_mem.
Qed.

Lemma alert_events_sent e token chat p v vs :
  bot_ctor e = None → image_available e (Some p) = true → open_photo e = None →
  SendPhoto chat p (alert_caption (v :: vs))
  ∈ alert_events e token chat (Some p) (v :: vs).
Proof.
  intros Hb Hi Ho. run_alert. rewrite Hb. simpl.
  simpl in Hi. rewrite Hi. simpl. rewrite Ho. simpl.
  destruct (send_photo e) as [ex|]; simpl; [destruct ex; simpl|]; solve_mem.
Qed.

Lemma screenshot_file_nonempty cfg e : String.eqb (screenshot_file cfg e) "" = false.
Proof.
  unfold screenshot_file, path_join.
  by destruct (path_prefix (screenshot_dir cfg)).
Qed.

(** X21. The photo of an alert is the screenshot of the frame that raised
    it: for a frame with violations that line 93 drew, for which the
    screenshot was written and the alert is due, the events of the frame are
    the line of the frame, the write of the screenshot, the events of the
    sender called with that file, and the output; a photo that is sent is
    that file, sent to the configured chat with the frame's violations in
    the caption, and it is sent whenever the bot can be built and the file
    is there and opens. *)
Theorem alert_attaches_frame_screenshot (cfg : Config) (e : FrameEnv) (st : State)
    (v : Detection) (vs : list Detection) (ops : list DrawOp) :
  detect_violations cfg (env_results e) = inr (v :: vs) →
  draw_frame e (v :: vs) = inr ops →
  save_screenshots cfg = true →
  imwrite_ok e = true →
  enable_alerts cfg = true →
  alert_due (last_alert_time st) (min_alert_interval st) (now e) = true →
  ∃ c st',
    process_frame cfg e st = (inr c, st')
    ∧ new_events st st'
      = [Printed (LineFrameViolations (frame_count st + 1) (length (v :: vs)));
         ImWrite (screenshot_file cfg e);
         Printed (LineScreenshotSaved (screenshot_file cfg e))]
        ++ alert_events e (bot_token cfg) (chat_id cfg)
             (Some (screenshot_file cfg e)) (v :: vs)
        ++ finish_events cfg
    ∧ (∀ c' p' cap, SendPhoto c' p' cap ∈ new_events st st' →
         c' = chat_id cfg ∧ p' = screenshot_file cfg e
         ∧ cap = alert_caption (v :: vs))
    ∧ (bot_ctor e = None → path_exists e (screenshot_file cfg e) = true →
       open_photo e = None →
       SendPhoto (chat_id cfg) (screenshot_file cfg e) (alert_caption (v :: vs))
       ∈ new_events st st').
Proof.
  intros Hdet Hdraw Hs Hw He Hdue.
  pose proof (before_alert_screenshot_path cfg e (length (v :: vs))
                (snd (incr_frame_count st))) as Hpath.
  pose proof (before_alert_trace cfg e (length (v :: vs))
                (snd (incr_frame_count st))) as Htrace.
  rewrite Hs, Hw in Hpath, Htrace. simpl in Htrace.
  destruct (process_frame_cases cfg e st)
    as [ex Hd|vs0 ex Hd Hr|ops0 Hd Hr|v0 vs0 ops0 st2 Hd Hr -> Hsup
        |v0 vs0 ops0 st2 Hd Hr -> _ _ Hp|v0 vs0 ops0 st2 ip Hd Hr -> _ _ Hp];
    try congruence.
  { destruct Hsup; congruence. }
  assert (v0 :: vs0 = v :: vs) as Heq by congruence. rewrite Heq in *.
  assert (ip = Some (screenshot_file cfg e)) as -> by congruence.
  rewrite finish_frame_state. do 2 eexists. split; [reflexivity|].
  assert (Hev :
    new_events st
      (add_trace (finish_events cfg)
         (record_alert (now e)
            (add_trace
               (alert_events e (bot_token cfg) (chat_id cfg)
                  (Some (screenshot_file cfg e)) (v :: vs))
               (before_alert cfg e (length (v :: vs)) (snd (incr_frame_count st))))))
    = [Printed (LineFrameViolations (frame_count st + 1) (length (v :: vs)));
       ImWrite (screenshot_file cfg e);
       Printed (LineScreenshotSaved (screenshot_file cfg e))]
      ++ alert_events e (bot_token cfg) (chat_id cfg)
           (Some (screenshot_file cfg e)) (v :: vs)
      ++ finish_events cfg).
  { apply new_events_app. simpl. rewrite Htrace, <- !app_assoc. reflexivity. }
  split; [exact Hev|]. rewrite Hev. split.
  - intros c' p' cap. rewrite !elem_of_app.
    intros [Hin|[Hin|Hin]].
    + solve_mem.
    + apply alert_events_photo in Hin as (-> & [= <-] & ->). done.
    + unfold finish_events in Hin.
      destruct (save_output cfg), (show_preview cfg); simpl in Hin; solve_mem.
  - intros Hb Hex Ho. rewrite !elem_of_app. right. left.
    apply alert_events_sent; try done.
    simpl. by rewrite screenshot_file_nonempty, Hex.
Qed.

Lemma alert_attaches_frame_screenshot_witness :
  let e := helmet_frame true 1000 None in
  let st := init helmet_cfg in
  detect_violations helmet_cfg (env_results e) = inr [helmet_violation]
  ∧ draw_frame e [helmet_violation] = inr helmet_ops
  ∧ save_screenshots helmet_cfg = true
  ∧ imwrite_ok e = true
  ∧ enable_alerts helmet_cfg = true
  ∧ alert_due (last_alert_time st) (min_alert_interval st) (now e) = true
  ∧ ∃ c st',
      process_frame helmet_cfg e st = (inr c, st')
      ∧ new_events st st'
        = [Printed (LineFrameViolations (frame_count st + 1)
                      (length [helmet_violation]));
           ImWrite (screenshot_file helmet_cfg e);
           Printed (LineScreenshotSaved (screenshot_file helmet_cfg e))]
          ++ alert_events e (bot_token helmet_cfg) (chat_id helmet_cfg)
               (Some (screenshot_file helmet_cfg e)) [helmet_violation]
          ++ finish_events helmet_cfg
      ∧ (∀ c' p' cap, SendPhoto c' p' cap ∈ new_events st st' →
           c' = chat_id helmet_cfg ∧ p' = screenshot_file helmet_cfg e
           ∧ cap = alert_caption [helmet_violation])
      ∧ (bot_ctor e = None → path_exists e (screenshot_file helmet_cfg e) = true →
         open_photo e = None →
         SendPhoto (chat_id helmet_cfg) (screenshot_file helmet_cfg e)
           (alert_caption [helmet_violation])
         ∈ new_events st st').
Proof.
  intros e st.
  assert (H1 : detect_violations helmet_cfg (env_results e) = inr [helmet_violation])
    by (vm_compute; reflexivity).
  assert (H2 : draw_frame e [helmet_violation] = inr helmet_ops)
    by (vm_compute; reflexivity).
  exact (conj H1 (conj H2 (conj eq_refl (conj eq_refl (conj eq_refl (conj eq_refl
           (alert_attaches_frame_screenshot helmet_cfg e st helmet_violation []
              helmet_ops H1 H2 eq_refl eq_refl eq_refl eq_refl))))))).
Defined.

(** A detector that could be built is [init]: no alert time is recorded,
    and the cooldown is the configured number of seconds. A cooldown that
    [timedelta] cannot hold stops [__init__]. *)
Lemma new_detector_state cfg st :
  new_detector cfg = inr st →
  st = init cfg
  ∧ last_alert_time st = None
  ∧ min_alert_interval st = timedelta_seconds (min_time_between_alerts cfg).
Proof.
  unfold new_detector.
  destruct (timedelta_fits (min_time_between_alerts cfg)); [|done].
  by intros [= <-].
Qed.

Example new_detector_overflow :
  new_detector (mkConfig 0.5%float [] true "shots" (10 ^ 15) true "" "" false false)
  = inl OverflowError
  ∧ new_detector helmet_cfg = inr (init helmet_cfg).
Proof. vm_compute. split; reflexivity. Qed.

(** X22. The first alert is never held back: while no alert time is
    recorded, as in a detector that has just been built, a frame with
    violations that line 93 drew calls the sender and records the time of
    the frame, whatever the clock reads and whatever the cooldown is
    (screenshots and alerts enabled). *)
Theorem first_alert_always_due (cfg : Config) (e : FrameEnv) (st : State)
    (v : Detection) (vs : list Detection) (ops : list DrawOp) :
  last_alert_time st = None →
  detect_violations cfg (env_results e) = inr (v :: vs) →
  draw_frame e (v :: vs) = inr ops →
  enable_alerts cfg = true →
  save_screenshots cfg = true →
  ∃ c st',
    process_frame cfg e st = (inr c, st')
    ∧ last_alert_time st' = Some (now e)
    ∧ NewBot (bot_token cfg) ∈ new_events st st'.
Proof.
  intros Hl Hdet Hdraw He Hs.
  destruct (process_frame_dispatch cfg e st v vs ops
              (if imwrite_ok e
               then Some (path_join (screenshot_dir cfg)
                            ("violation_" +:+ shot_stamp e +:+ ".jpg"))
               else None) Hdet Hdraw He)
    as (c & st' & evs1 & evs3 & Hrun & Hlast & _ & _ & Hev & _).
  { by rewrite Hl. }
  { by rewrite Hs. }
  exists c, st'. split; [done|]. split; [done|].
  rewrite Hev.
  destruct (alert_events_head e (bot_token cfg) (chat_id cfg)
              (if imwrite_ok e
               then Some (path_join (screenshot_dir cfg)
                            ("violation_" +:+ shot_stamp e +:+ ".jpg"))
               else None) v vs) as [evs ->].
  rewrite !elem_of_app. right. left. by left.
Qed.

Lemma first_alert_always_due_witness :
  let cfg := mkConfig 0.5%float ["no_helmet"%string] true "shots" 86400 true "token"
               "chat" false false in
  let e := helmet_frame false (-7) (Some OtherException) in
  last_alert_time (init cfg) = None
  ∧ detect_violations cfg (env_results e) = inr [helmet_violation]
  ∧ draw_frame e [helmet_violation] = inr helmet_ops
  ∧ enable_alerts cfg = true
  ∧ save_screenshots cfg = true
  ∧ ∃ c st',
      process_frame cfg e (init cfg) = (inr c, st')
      ∧ last_alert_time st' = Some (now e)
      ∧ NewBot (bot_token cfg) ∈ new_events (init cfg) st'.
Proof.
  intros cfg e.
  assert (H2 : detect_violations cfg (env_results e) = inr [helmet_violation])
    by (vm_compute; reflexivity).
  assert (H3 : draw_frame e [helmet_violation] = inr helmet_ops)
    by (vm_compute; reflexivity).
  exact (conj eq_refl (conj H2 (conj H3 (conj eq_refl (conj eq_refl
           (first_alert_always_due cfg e (init cfg) helmet_violation []
              helmet_ops eq_refl H2 H3 eq_refl eq_refl)))))).
Defined.
